(** * thriftpy/transport.py: the byte-transport layer

    A shallow embedding of [TTransportBase], [TBufferedTransport],
    [TSocketBase] and [TSocket], and the properties of exact-count reads,
    write coalescing, candidate iteration and end-of-stream handling.

    Python values are modelled as the code has them: [bytes] as a list of
    bytes, unbounded [int] as [Z], [None]-able attributes as [option],
    exceptions as a result type threaded with the mutated objects. *)

From Equations Require Import Equations.
From Stdlib Require Import String Ascii List ZArith Bool Lia DecimalString.
From Stdlib Require SpecFloat.
Import ListNotations.
Open Scope Z_scope.

Set Implicit Arguments.

(** ** Python primitives *)

Definition bytes := list Byte.byte.

(** [len(b)] *)
Definition len (b : bytes) : Z := Z.of_nat (length b).

(** ** Exceptions *)

(** The class constants of [TTransportException]. *)
Inductive kind := UNKNOWN | NOT_OPEN | ALREADY_OPEN | TIMED_OUT | END_OF_FILE.

Definition kind_code (k : kind) : Z :=
  match k with
  | UNKNOWN => 0 | NOT_OPEN => 1 | ALREADY_OPEN => 2
  | TIMED_OUT => 3 | END_OF_FILE => 4
  end.

(** First element of a [socket.error]'s [args]: an errno, or something that
    never compares equal to one (the text of a [socket.timeout]). *)
Inductive err_arg := Errno (code : Z) | ErrText (s : string).

Inductive exn :=
| EOFError
| TTransportException (type : kind) (message : option string)
| socket_error (args : list err_arg)
| AttributeError (what : string)
| IndexError
| OtherError (name : string).

(** ** Results and the state-and-exception monad

    Every method receives the object it is called on (with everything the
    object owns) and gives it back, changed, with what it returned or
    raised. *)

Inductive outcome (A : Type) :=
| Return (a : A)
| Raise (e : exn).
Arguments Return {A} a.
Arguments Raise {A} e.

Definition M (S A : Type) : Type := S -> outcome A * S.

Definition ret {S A} (a : A) : M S A := fun s => (Return a, s).

Definition raise {S A} (e : exn) : M S A := fun s => (Raise e, s).

Definition bind {S A B} (m : M S A) (k : A -> M S B) : M S B :=
  fun s => match m s with
           | (Return a, s') => k a s'
           | (Raise e, s') => (Raise e, s')
           end.

Definition get {S} : M S S := fun s => (Return s, s).

Definition put {S} (s : S) : M S unit := fun _ => (Return tt, s).

Declare Scope py_scope.
Delimit Scope py_scope with py.
Notation "x <- m ;; k" := (bind m (fun x => k))
  (at level 100, m at next level, right associativity) : py_scope.
Notation "m ;;; k" := (bind m (fun _ => k))
  (at level 100, right associativity) : py_scope.

(** ** The transport capability *)

Class Transport (T : Type) := {
  t_isOpen : M T bool;
  t_open : M T unit;
  t_close : M T unit;
  t_read : Z -> M T bytes;
  t_write : bytes -> M T unit;
  t_flush : M T unit
}.

(** ** [TTransportBase] *)

Module TTransportBase.
Section ReadAll.
Context {T : Type} {TT : Transport T}.

(** The [while (have < sz)] loop of [readAll]: every turn that does not
    raise adds at least one byte, so [sz - have] shrinks. *)
Equations? readAll_loop (sz : Z) (buff : bytes) (have : Z) (self : T)
  : outcome bytes * T by wf (Z.to_nat (sz - have)) lt :=
  readAll_loop sz buff have self with Z_lt_dec have sz := {
    | right _ => (Return buff, self)
    | left Hlt with t_read (sz - have) self := {
        | (Raise e, self') => (Raise e, self')
        | (Return chunk, self') with Nat.eq_dec (length chunk) 0 := {
            | left _ => (Raise EOFError, self')
            | right Hne =>
                readAll_loop sz (buff ++ chunk) (have + len chunk) self' } } }.
Proof. unfold len. lia. Qed.

Definition readAll (sz : Z) : M T bytes :=
  fun self => readAll_loop sz [] 0 self.

End ReadAll.
End TTransportBase.

(** ** [io.BytesIO] *)

Record BytesIO := { getvalue : bytes; tell : nat }.

(** [BytesIO(initial)]: the position starts at 0. *)
Definition BytesIO_new (initial : bytes) : BytesIO :=
  {| getvalue := initial; tell := 0 |}.

(** [b.read(sz)]: up to [sz] bytes from the position on, everything left
    when [sz] is negative; the position moves past what is returned. *)
Definition BytesIO_read (sz : Z) (b : BytesIO) : bytes * BytesIO :=
  let rest := skipn (tell b) (getvalue b) in
  let got := if sz <? 0 then rest else firstn (Z.to_nat sz) rest in
  (got, {| getvalue := getvalue b; tell := tell b + length got |}).

(** [b.write(buf)]: overwrite from the position on, extending the value.
    The transport never seeks, so the position is within the value. *)
Definition BytesIO_write (buf : bytes) (b : BytesIO) : BytesIO :=
  {| getvalue := firstn (tell b) (getvalue b) ++ buf
                 ++ skipn (tell b + length buf) (getvalue b);
     tell := tell b + length buf |}.

(** The bytes not yet read. *)
Definition unread (b : BytesIO) : bytes := skipn (tell b) (getvalue b).

(** ** [TBufferedTransport] *)

Module TBufferedTransport.

Definition DEFAULT_BUFFER : Z := 4096.

Record t (T : Type) := mk {
  trans : T;
  wbuf : BytesIO;
  rbuf : BytesIO;
  rbuf_size : Z
}.
Arguments mk {T} _ _ _ _.

Section Methods.
Context {T : Type} {TT : Transport T}.

Definition init (trans : T) (rbuf_size : Z) : t T :=
  mk trans (BytesIO_new []) (BytesIO_new []) rbuf_size.

Definition set_trans (x : T) (self : t T) : t T :=
  mk x (wbuf self) (rbuf self) (rbuf_size self).

Definition set_wbuf (b : BytesIO) : M (t T) unit :=
  fun self => (Return tt, mk (trans self) b (rbuf self) (rbuf_size self)).

Definition set_rbuf (b : BytesIO) : M (t T) unit :=
  fun self => (Return tt, mk (trans self) (wbuf self) b (rbuf_size self)).

(** A call on [self.__trans]: the inner transport is owned by the wrapper
    and keeps whatever the call did to it, also when the call raises. *)
Definition inner {A} (m : M T A) : M (t T) A :=
  fun self => let (r, x) := m (trans self) in (r, set_trans x self).

(** [self.__rbuf.read(sz)] *)
Definition rbuf_read (sz : Z) : M (t T) bytes :=
  fun self => let (got, b) := BytesIO_read sz (rbuf self) in
              (Return got, mk (trans self) (wbuf self) b (rbuf_size self)).

Definition isOpen : M (t T) bool := inner t_isOpen.
Definition open : M (t T) unit := inner t_open.
Definition close : M (t T) unit := inner t_close.

Definition read (sz : Z) : M (t T) bytes :=
  (got <- rbuf_read sz ;;
   if negb (len got =? 0) then ret got
   else
     self <- get ;;
     data <- inner (t_read (Z.max sz (rbuf_size self))) ;;
     set_rbuf (BytesIO_new data) ;;;
     rbuf_read sz)%py.

Definition write (buf : bytes) : M (t T) unit :=
  fun self => (Return tt, mk (trans self) (BytesIO_write buf (wbuf self))
                             (rbuf self) (rbuf_size self)).

Definition flush : M (t T) unit :=
  (self <- get ;;
   let out := getvalue (wbuf self) in
   set_wbuf (BytesIO_new []) ;;;
   inner (t_write out) ;;;
   inner t_flush)%py.

(** The [cstringio_buf] property: the read buffer itself. *)
Definition cstringio_buf (self : t T) : BytesIO := rbuf self.

Definition cstringio_refill (partialread : bytes) (reqlen : Z)
  : M (t T) BytesIO :=
  (self <- get ;;
   retstring <-
     (if reqlen <? rbuf_size self
      then more <- inner (t_read (rbuf_size self)) ;; ret (partialread ++ more)
      else ret partialread) ;;
   retstring <-
     (if len retstring <? reqlen
      then more <- inner (TTransportBase.readAll (reqlen - len retstring)) ;;
           ret (retstring ++ more)
      else ret retstring) ;;
   set_rbuf (BytesIO_new retstring) ;;;
   ret (BytesIO_new retstring))%py.

#[global] Instance transport : Transport (t T) := {
  t_isOpen := isOpen;
  t_open := open;
  t_close := close;
  t_read := read;
  t_write := write;
  t_flush := flush
}.

End Methods.
End TBufferedTransport.

(** ** Observing the calls made on an inner transport *)

Inductive call :=
| CallIsOpen
| CallOpen
| CallClose
| CallRead (sz : Z) (r : outcome bytes)
| CallWrite (buf : bytes) (r : outcome unit)
| CallFlush (r : outcome unit).

(** A transport together with the record of every call made on it, oldest
    first. *)
Record Logged (T : Type) := { target : T; calls : list call }.

Module Logged.
Section Wrap.
Context {T : Type} {TT : Transport T}.

Definition logging {A} (m : M T A) (ev : outcome A -> call) : M (Logged T) A :=
  fun l => let (r, x) := m (target l) in
           (r, {| target := x; calls := calls l ++ [ev r] |}).

#[global] Instance transport : Transport (Logged T) := {
  t_isOpen := logging t_isOpen (fun _ => CallIsOpen);
  t_open := logging t_open (fun _ => CallOpen);
  t_close := logging t_close (fun _ => CallClose);
  t_read := fun sz => logging (t_read sz) (CallRead sz);
  t_write := fun buf => logging (t_write buf) (CallWrite buf);
  t_flush := logging t_flush CallFlush
}.

Definition fresh (x : T) : Logged T := {| target := x; calls := [] |}.

End Wrap.
End Logged.

(** ** The [socket] module, as far as the transport uses it *)

Inductive family := AF_UNSPEC | AF_UNIX | AF_INET | AF_INET6.
Inductive socktype := SOCK_STREAM | SOCK_DGRAM.

(** What [connect] is given: the path of a Unix-domain socket, or the
    address tuple of a resolved host. *)
Inductive sockaddr :=
| UnixPath (path : string)
| InetAddr (ip : string) (port : Z)
| Inet6Addr (ip : string) (port flowinfo scope_id : Z).

(** The 5-tuple [(family, type, proto, canonname, sockaddr)]. *)
Record addrinfo := {
  ai_family : family;
  ai_socktype : socktype;
  ai_proto : option Z;
  ai_canonname : option string;
  ai_addr : sockaddr
}.

(** Flag values of [netdb.h]. *)
Definition AI_PASSIVE : Z := 1.
Definition AI_ADDRCONFIG : Z := 32.

(** Python's [float]: an IEEE 754 binary64 number. *)
Definition float : Type := SpecFloat.spec_float.

(** [float(n)] for an [int]: the nearest float, ties to even;
    [OverflowError] when the [int] is too large for a float. *)
Definition float_of_int (n : Z) : outcome float :=
  match SpecFloat.binary_normalize 53 1024 n 0 false with
  | SpecFloat.S754_infinity _ => Raise (OtherError "OverflowError")
  | f => Return f
  end.

(** The literal [1000.0]. *)
Definition thousand : float := SpecFloat.binary_normalize 53 1024 1000 0 false.

(** [n / 1000.0] for an [int] [n]: the [int] is converted first. *)
Definition div_thousand (n : Z) : outcome float :=
  match float_of_int n with
  | Return f => Return (SpecFloat.SFdiv 53 1024 f thousand)
  | Raise e => Raise e
  end.

(** A socket timeout, in seconds. *)
Definition timeout : Type := float.

(** The operating system behind the [socket] module. [W] is the state of
    the system, [H] the socket objects it hands out. Creating a socket,
    setting its timeout, [connect], [recv], [send] and name resolution may
    raise; closing a socket is taken to succeed. [send] gives the number
    of bytes the system accepted. *)
Class SocketEnv (W H : Type) := {
  sys_platform : string;
  ECONNRESET : Z;
  getaddrinfo : string -> Z -> family -> socktype -> Z -> Z -> M W (list addrinfo);
  socket_socket : family -> socktype -> M W H;
  settimeout : H -> option timeout -> M W unit;
  connect : H -> sockaddr -> M W unit;
  recv : H -> Z -> M W bytes;
  send : H -> bytes -> M W nat;
  sock_close : H -> W -> W
}.

(** [try: m except socket.error as e: handler e] *)
Definition try_socket_error {S A} (m : M S A) (handler : list err_arg -> M S A)
  : M S A :=
  fun s => match m s with
           | (Raise (socket_error args), s') => handler args s'
           | r => r
           end.

(** ['%d' % n] *)
Definition format_d (n : Z) : string := NilZero.string_of_int (Z.to_int n).

(** ** [TSocketBase] and [TSocket] *)

Module TSocket.

Record t (H : Type) := mk {
  host : string;
  port : Z;
  handle : option H;
  _unix_socket : option string;
  _timeout : option timeout
}.
Arguments mk {H} _ _ _ _ _.

(** A socket transport and the system its handle lives in. *)
Record st (W H : Type) := St { self : t H; os : W }.
Arguments St {W H} _ _.

Section Methods.
Context {W H : Type} {E : SocketEnv W H}.

(** [TSocket(host, port, unix_socket)] *)
Definition init (host : string) (port : Z) (unix_socket : option string) : t H :=
  mk host port None unix_socket None.

Definition default : t H := init "localhost" 9090 None.

Definition set_handle (h : option H) : M (st W H) unit :=
  fun s => let x := self s in
           (Return tt, St (mk (host x) (port x) h (_unix_socket x) (_timeout x))
                          (os s)).

Definition set_timeout (v : option timeout) : M (st W H) unit :=
  fun s => let x := self s in
           (Return tt, St (mk (host x) (port x) (handle x) (_unix_socket x) v)
                          (os s)).

(** A call into the [socket] module that may raise. *)
Definition sys {A} (m : M W A) : M (st W H) A :=
  fun s => let (r, w) := m (os s) in (r, St (self s) w).

(** A call into the [socket] module that cannot raise. *)
Definition sys_do (f : W -> W) : M (st W H) unit :=
  fun s => (Return tt, St (self s) (f (os s))).

(** [TSocketBase._resolveAddr] *)
Definition _resolveAddr : M (st W H) (list addrinfo) :=
  (s <- get ;;
   match _unix_socket (self s) with
   | Some path =>
       ret [ {| ai_family := AF_UNIX; ai_socktype := SOCK_STREAM;
                ai_proto := None; ai_canonname := None;
                ai_addr := UnixPath path |} ]
   | None =>
       sys (getaddrinfo (host (self s)) (port (self s)) AF_UNSPEC SOCK_STREAM 0
                        (Z.lor AI_PASSIVE AI_ADDRCONFIG))
   end)%py.

(** [TSocketBase.close] *)
Definition close : M (st W H) unit :=
  (s <- get ;;
   match handle (self s) with
   | Some h => sys_do (sock_close h) ;;; set_handle None
   | None => ret tt
   end)%py.

Definition setHandle (h : option H) : M (st W H) unit := set_handle h.

Definition isOpen : M (st W H) bool :=
  (s <- get ;;
   ret (match handle (self s) with Some _ => true | None => false end))%py.

Definition setTimeout (ms : option Z) : M (st W H) unit :=
  (match ms with
   | None => set_timeout None
   | Some v =>
       match div_thousand v with
       | Return seconds => set_timeout (Some seconds)
       | Raise e => raise e
       end
   end ;;;
   s <- get ;;
   match handle (self s) with
   | Some h => sys (settimeout h (_timeout (self s)))
   | None => ret tt
   end)%py.

(** The [for res in res0] loop of [open]. The candidates are distinct
    tuples, so [res is not res0[-1]] holds exactly while candidates
    remain after [res]. *)
Fixpoint open_loop (res0 : list addrinfo) : M (st W H) unit :=
  match res0 with
  | [] => ret tt
  | res :: rest =>
      (h <- sys (socket_socket (ai_family res) (ai_socktype res)) ;;
       set_handle (Some h) ;;;
       s <- get ;;
       sys (settimeout h (_timeout (self s))) ;;;
       try_socket_error (sys (connect h (ai_addr res)))
         (fun e => match rest with
                   | _ :: _ => open_loop rest
                   | [] => raise (socket_error e)
                   end))%py
  end.

(** The [message] of the exception [open] raises: the Unix path when one
    is set and not empty, the host and port otherwise. *)
Definition not_open_message (x : t H) : string :=
  match _unix_socket x with
  | Some (String c path) =>
      ("Could not connect to socket " ++ String c path)%string
  | _ =>
      ("Could not connect to " ++ host x ++ ":" ++ format_d (port x))%string
  end.

Definition open : M (st W H) unit :=
  try_socket_error
    (res0 <- _resolveAddr ;; open_loop res0)%py
    (fun _ =>
       s <- get ;;
       raise (TTransportException NOT_OPEN (Some (not_open_message (self s)))))%py.

(** The test [e.args[0] == errno.ECONNRESET] of the handler in [read]. *)
Definition is_reset (e : list err_arg) : outcome bool :=
  match e with
  | [] => Raise IndexError
  | Errno code :: _ => Return (code =? ECONNRESET)
  | ErrText _ :: _ => Return false
  end.

Definition peer_shutdown_platform : bool :=
  String.eqb sys_platform "darwin" || String.prefix "freebsd" sys_platform.

Definition read (sz : Z) : M (st W H) bytes :=
  (s <- get ;;
   buff <-
     match handle (self s) with
     | None => raise (AttributeError "'NoneType' object has no attribute 'recv'")
     | Some h =>
         try_socket_error (sys (recv h sz))
           (fun e =>
              match is_reset e with
              | Raise x => raise x
              | Return true =>
                  if peer_shutdown_platform
                  then close ;;; ret []
                  else raise (socket_error e)
              | Return false => raise (socket_error e)
              end)
     end ;;
   if len buff =? 0
   then raise (TTransportException END_OF_FILE (Some "TSocket read 0 bytes"%string))
   else ret buff)%py.

(** The [while sent < have] loop of [write]: a turn that does not raise
    adds at least one to [sent]. *)
Equations? write_loop (h : H) (have sent : Z) (buff : bytes) (s : st W H)
  : outcome unit * st W H by wf (Z.to_nat (have - sent)) lt :=
  write_loop h have sent buff s with Z_lt_dec sent have := {
    | right _ => (Return tt, s)
    | left Hlt with sys (send h buff) s := {
        | (Raise e, s') => (Raise e, s')
        | (Return plus_, s') with Nat.eq_dec plus_ 0 := {
            | left _ =>
                (Raise (TTransportException END_OF_FILE
                          (Some "TSocket sent 0 bytes"%string)), s')
            | right Hne =>
                write_loop h have (sent + Z.of_nat plus_) (skipn plus_ buff) s' } } }.
Proof. lia. Qed.

Definition write (buff : bytes) : M (st W H) unit :=
  fun s =>
    match handle (self s) with
    | None =>
        (Raise (TTransportException NOT_OPEN (Some "Transport not open"%string)), s)
    | Some h => write_loop h (len buff) 0 buff s
    end.

Definition flush : M (st W H) unit := ret tt.

#[global] Instance transport : Transport (st W H) := {
  t_isOpen := isOpen;
  t_open := open;
  t_close := close;
  t_read := read;
  t_write := write;
  t_flush := flush
}.

End Methods.
End TSocket.

(** ** Observing the calls made into the [socket] module *)

Inductive sys_call (H : Type) :=
| SysGetaddrinfo (host : string) (port : Z) (r : outcome (list addrinfo))
| SysSocket (f : family) (ty : socktype) (r : outcome H)
| SysSetTimeout (h : H) (v : option timeout) (r : outcome unit)
| SysConnect (h : H) (a : sockaddr) (r : outcome unit)
| SysRecv (h : H) (sz : Z) (r : outcome bytes)
| SysSend (h : H) (buf : bytes) (r : outcome nat)
| SysClose (h : H).

(** A system together with the record of every call made into it, oldest
    first. *)
Record Traced (W H : Type) := { under : W; trace : list (sys_call H) }.

Module Traced.
Section Wrap.
Context {W H : Type} {E : SocketEnv W H}.

Definition tracing {A} (m : M W A) (ev : outcome A -> sys_call H)
  : M (Traced W H) A :=
  fun x => let (r, w) := m (under x) in
           (r, {| under := w; trace := trace x ++ [ev r] |}).

Definition tracing_do (f : W -> W) (ev : sys_call H) : Traced W H -> Traced W H :=
  fun x => {| under := f (under x); trace := trace x ++ [ev] |}.

#[global] Instance env : SocketEnv (Traced W H) H := {
  sys_platform := sys_platform (W := W);
  ECONNRESET := ECONNRESET (W := W);
  getaddrinfo := fun host port f ty proto flags =>
    tracing (getaddrinfo host port f ty proto flags) (SysGetaddrinfo H host port);
  socket_socket := fun f ty => tracing (socket_socket f ty) (SysSocket f ty);
  settimeout := fun h v => tracing (settimeout h v) (SysSetTimeout h v);
  connect := fun h a => tracing (connect h a) (SysConnect h a);
  recv := fun h sz => tracing (recv h sz) (SysRecv h sz);
  send := fun h buf => tracing (send h buf) (SysSend h buf);
  sock_close := fun h => tracing_do (sock_close h) (SysClose h)
}.

Definition fresh (w : W) : Traced W H := {| under := w; trace := [] |}.

End Wrap.
End Traced.

(** The [connect] calls of a trace, each as the address tried and whether
    the call returned. *)
Fixpoint connects {H} (tr : list (sys_call H)) : list (sockaddr * bool) :=
  match tr with
  | [] => []
  | SysConnect _ a (Return _) :: tr' => (a, true) :: connects tr'
  | SysConnect _ a (Raise _) :: tr' => (a, false) :: connects tr'
  | _ :: tr' => connects tr'
  end.

(** ** Test doubles *)

(** A transport that answers successive [read] calls from a list of
    prepared replies (and with no bytes once the list is used up), and
    every [write] and [flush] with a fixed outcome. *)
Module Script.

Record t := mk {
  replies : list (outcome bytes);
  write_result : outcome unit;
  flush_result : outcome unit
}.

Definition read (sz : Z) : M t bytes :=
  fun x => match replies x with
           | [] => (Return [], x)
           | r :: rest => (r, mk rest (write_result x) (flush_result x))
           end.

#[global] Instance transport : Transport t := {
  t_isOpen := ret true;
  t_open := ret tt;
  t_close := ret tt;
  t_read := read;
  t_write := fun _ x => (write_result x, x);
  t_flush := fun x => (flush_result x, x)
}.

(** A source that yields the given pieces in sequence. *)
Definition pieces (cs : list bytes) : t :=
  mk (map Return cs) (Return tt) (Return tt).

End Script.

(** A system in which successive [recv] calls are answered from prepared
    replies and [send] accepts at most [send_limit] bytes per call. Socket
    objects are numbered in the order they are created. Which addresses
    accept connections is fixed with the platform. *)
Module Mock.

Record os := mk {
  resolved : outcome (list addrinfo);
  inbox : list (outcome bytes);
  send_limit : nat;
  next_fd : nat
}.

Definition sockaddr_eq_dec (a b : sockaddr) : {a = b} + {a <> b}.
Proof. decide equality; auto using string_dec, Z.eq_dec. Defined.

Definition refused : exn :=
  socket_error [Errno 111; ErrText "Connection refused"].

Definition mock_connect (listening : list sockaddr) (a : sockaddr) : M os unit :=
  fun w => if in_dec sockaddr_eq_dec a listening
           then (Return tt, w) else (Raise refused, w).

Definition mock_recv : M os bytes :=
  fun w => match inbox w with
           | [] => (Return [], w)
           | r :: rest => (r, mk (resolved w) rest (send_limit w) (next_fd w))
           end.

Definition mock_socket (w : os) : nat * os :=
  (next_fd w, mk (resolved w) (inbox w) (send_limit w) (S (next_fd w))).

Definition unsupported : exn :=
  socket_error [Errno 97; ErrText "Address family not supported by protocol"].

(** [socket.socket] on a system that supports the given families only. *)
Definition mock_socket_socket (supported : family -> bool) (f : family)
  : M os nat :=
  fun w => if supported f
           then let (h, w') := mock_socket w in (Return h, w')
           else (Raise unsupported, w).

(** [settimeout] takes no negative timeout. *)
Definition mock_settimeout (v : option timeout) : M os unit :=
  fun w => match v with
           | Some seconds =>
               if SpecFloat.SFltb seconds (SpecFloat.S754_zero false)
               then (Raise (OtherError "ValueError"), w)
               else (Return tt, w)
           | None => (Return tt, w)
           end.

Definition env_on (supported : family -> bool)
    (platform : string) (econnreset : Z) (listening : list sockaddr)
  : SocketEnv os nat := {|
  sys_platform := platform;
  ECONNRESET := econnreset;
  getaddrinfo := fun _ _ _ _ _ _ w => (resolved w, w);
  socket_socket := fun f _ => mock_socket_socket supported f;
  settimeout := fun _ v => mock_settimeout v;
  connect := fun _ a => mock_connect listening a;
  recv := fun _ _ => mock_recv;
  send := fun _ buf w => (Return (Nat.min (length buf) (send_limit w)), w);
  sock_close := fun _ w => w
|}.

Definition env : string -> Z -> list sockaddr -> SocketEnv os nat :=
  env_on (fun _ => true).

(** A host without IPv6. *)
Definition ipv4_only (f : family) : bool :=
  match f with AF_INET6 => false | _ => true end.

Definition linux : list sockaddr -> SocketEnv os nat := env "linux" 104.
Definition darwin : list sockaddr -> SocketEnv os nat := env "darwin" 54.

Definition tcp (ip : string) (port : Z) : addrinfo :=
  {| ai_family := AF_INET; ai_socktype := SOCK_STREAM; ai_proto := Some 6;
     ai_canonname := Some ""%string; ai_addr := InetAddr ip port |}.

Definition tcp6 (ip : string) (port : Z) : addrinfo :=
  {| ai_family := AF_INET6; ai_socktype := SOCK_STREAM; ai_proto := Some 6;
     ai_canonname := Some ""%string; ai_addr := Inet6Addr ip port 0 0 |}.

End Mock.

(** The requests [readAll] makes: asked for [n] outstanding bytes, and then
    for what remains after each piece, the transport answers with the
    pieces [cs] in sequence. *)
Inductive drains {T : Type} `{Transport T} : Z -> T -> list bytes -> T -> Prop :=
| drains_nil n x : drains n x [] x
| drains_cons n x c x' cs x'' :
    t_read n x = (Return c, x') ->
    drains (n - len c) x' cs x'' ->
    drains n x (c :: cs) x''.

(** ** Vocabulary of the properties *)

Definition unix_candidate (path : string) : addrinfo :=
  {| ai_family := AF_UNIX; ai_socktype := SOCK_STREAM;
     ai_proto := None; ai_canonname := None; ai_addr := UnixPath path |}.

Definition eof_read : exn :=
  TTransportException END_OF_FILE (Some "TSocket read 0 bytes"%string).

Definition eof_sent : exn :=
  TTransportException END_OF_FILE (Some "TSocket sent 0 bytes"%string).

(** The number of bytes the [send] calls of a record accepted. *)
Fixpoint accepted (log : list (bytes * outcome nat)) : nat :=
  match log with
  | [] => 0
  | (_, Return k) :: log' => k + accepted log'
  | (_, Raise _) :: log' => accepted log'
  end.

(** The bytes the [send] calls of a record accepted: of each payload, the
    prefix that was taken. *)
Fixpoint transmitted (log : list (bytes * outcome nat)) : bytes :=
  match log with
  | [] => []
  | (buf, Return k) :: log' => firstn k buf ++ transmitted log'
  | (_, Raise _) :: log' => transmitted log'
  end.

(** Every call of the record accepted at least one byte. *)
Definition all_accepting (log : list (bytes * outcome nat)) : Prop :=
  Forall (fun c => exists k, snd c = Return k /\ k <> 0%nat) log.

(** A socket that accepts at most what it is offered. *)
Definition accepts_at_most_offered {W H} {E : SocketEnv W H} : Prop :=
  forall (h : H) (buf : bytes) (w w' : W) (k : nat),
    send h buf w = (Return k, w') -> (k <= length buf)%nat.

(** The [send] calls on [h] that a record of payloads and outcomes stands
    for. *)
Definition send_calls {H} (h : H) (log : list (bytes * outcome nat))
  : list (sys_call H) :=
  map (fun c => SysSend h (fst c) (snd c)) log.

(** The record of failed [connect] calls on the given candidates. *)
Definition fails (cands : list addrinfo) : list (sockaddr * bool) :=
  map (fun c => (ai_addr c, false)) cands.

(** No socket can connect to [a]. *)
Definition refuses {W H} {E : SocketEnv W H} (a : sockaddr) : Prop :=
  forall (h : H) (w : W),
    exists args w', connect h a w = (Raise (socket_error args), w').

(** Every socket can connect to [a]. *)
Definition accepts {W H} {E : SocketEnv W H} (a : sockaddr) : Prop :=
  forall (h : H) (w : W), exists w', connect h a w = (Return tt, w').

(** Two transports configured alike, whatever their handles. *)
Definition same_config {H} (x y : TSocket.t H) : Prop :=
  TSocket.host x = TSocket.host y /\ TSocket.port x = TSocket.port y /\
  TSocket._unix_socket x = TSocket._unix_socket y /\
  TSocket._timeout x = TSocket._timeout y.

(** The calls [write(b1); ...; write(bn)] on a buffered transport. *)
Fixpoint write_all {T : Type} {TT : Transport T} (bufs : list bytes)
  : M (TBufferedTransport.t T) unit :=
  match bufs with
  | [] => ret tt
  | b :: rest => (TBufferedTransport.write b ;;; write_all rest)%py
  end.

(** The position of a buffer that has only been written to: its end. *)
Definition at_end (b : BytesIO) : Prop := tell b = length (getvalue b).

(** The bytes that the [read] calls of a record returned, in order. *)
Fixpoint chunks_read (cs : list call) : bytes :=
  match cs with
  | [] => []
  | CallRead _ (Return c) :: cs' => c ++ chunks_read cs'
  | _ :: cs' => chunks_read cs'
  end.

(** ** Sample data *)

Module Sample.

Definition hello : bytes := [Byte.x68; Byte.x65; Byte.x6c; Byte.x6c; Byte.x6f].

Definition eight : bytes := hello ++ [Byte.x21; Byte.x21; Byte.x21].

Definition ten : bytes := hello ++ hello.

Definition five_in_three : list bytes :=
  [[Byte.x68]; [Byte.x65; Byte.x6c]; [Byte.x6c; Byte.x6f]].

(** Three resolved candidates, of which only the last one listens. *)
Definition candidates : list addrinfo :=
  [Mock.tcp "10.0.0.1" 9090; Mock.tcp "10.0.0.2" 9090; Mock.tcp "10.0.0.3" 9090].

Definition only_last : list sockaddr := [InetAddr "10.0.0.3" 9090].

Definition quiet : Mock.os := Mock.mk (Return candidates) [] 3 0.

(** The peer has closed: [recv] returns no bytes. *)
Definition hung_up : Mock.os := Mock.mk (Return candidates) [Return []] 3 0.

(** The peer has shut down and [recv] reports a reset. *)
Definition reset_by_peer : Mock.os :=
  Mock.mk (Return candidates)
          [Raise (socket_error [Errno 54; ErrText "Connection reset by peer"])]
          3 0.

(** One resolved candidate. *)
Definition one_candidate : Mock.os :=
  Mock.mk (Return [Mock.tcp "127.0.0.1" 9090]) [] 3 0.

(** Name resolution returns an IPv6 candidate before an IPv4 one. *)
Definition dual_stack : Mock.os :=
  Mock.mk (Return [Mock.tcp6 "::1" 9090; Mock.tcp "127.0.0.1" 9090]) [] 3 0.

(** A host without IPv6, with a listener on the IPv4 loopback address. *)
Definition no_ipv6 : SocketEnv Mock.os nat :=
  Mock.env_on Mock.ipv4_only "linux" 104 [InetAddr "127.0.0.1" 9090].

(** A transport holding socket 0. *)
Definition holding {W} (w : W) : TSocket.st W nat :=
  TSocket.St (TSocket.mk "localhost" 9090 (Some 0%nat) None None) w.

(** A buffered transport with three unread bytes out of five. *)
Definition half_read : TBufferedTransport.t (Logged Script.t) :=
  TBufferedTransport.mk (Logged.fresh (Script.pieces [eight]))
                        (BytesIO_new [])
                        {| getvalue := hello; tell := 2 |} 4096.

(** A buffered transport that has consumed its read buffer. *)
Definition drained : TBufferedTransport.t (Logged Script.t) :=
  TBufferedTransport.mk (Logged.fresh (Script.pieces [eight]))
                        (BytesIO_new [])
                        {| getvalue := hello; tell := 5 |} 4096.

(** A fresh buffered transport over a source of two short pieces. *)
Definition trickling : TBufferedTransport.t (Logged Script.t) :=
  TBufferedTransport.init
    (Logged.fresh (Script.pieces [[Byte.x6c]; [Byte.x6c; Byte.x6f]])) 4096.

(** A fresh buffered transport with a block size of 4. *)
Definition small_block : TBufferedTransport.t (Logged Script.t) :=
  TBufferedTransport.init (Logged.fresh (Script.pieces [eight])) 4.

End Sample.

(** ** Vocabulary of the further properties *)

(** A transport whose [read] returns at most as many bytes as it is asked
    for. *)
Definition reads_at_most_asked {T : Type} {TT : Transport T} : Prop :=
  forall (k : Z) (x x' : T) (c : bytes),
    0 <= k -> t_read k x = (Return c, x') -> len c <= k.

(** The [read] calls of [readAll] and their result: a record of calls
    made while [remaining] bytes are outstanding and [collected] is in
    hand, ending in the outcome [r]. No call is made when nothing is
    outstanding, and [collected] is the result. Otherwise the next call
    asks for exactly [remaining] bytes; it is the last one if it raises,
    the exception being the outcome, or if it returns no bytes, the
    outcome being [EOFError]; if it returns bytes, they are added to
    [collected] and taken off [remaining]. *)
Fixpoint asks_outstanding (remaining : Z) (collected : bytes)
    (cs : list call) (r : outcome bytes) : Prop :=
  match cs with
  | [] => remaining <= 0 /\ r = Return collected
  | CallRead k rl :: cs' =>
      k = remaining /\ 0 < remaining /\
      match rl with
      | Raise e => cs' = [] /\ r = Raise e
      | Return [] => cs' = [] /\ r = Raise EOFError
      | Return chunk =>
          asks_outstanding (remaining - len chunk) (collected ++ chunk) cs' r
      end
  | _ :: _ => False
  end.

(** [recv] never raises [EOFError]. *)
Definition recv_never_raises_EOFError {W H} {E : SocketEnv W H} : Prop :=
  forall (h : H) (k : Z) (w w' : W), recv h k w <> (Raise EOFError, w').

(** A source that answers successive [read] calls, whatever count they
    ask for, with the pieces [cs] in sequence. *)
Fixpoint serves {T : Type} {TT : Transport T} (cs : list bytes) (x : T) : Prop :=
  match cs with
  | [] => True
  | c :: cs' =>
      forall k, exists x1, t_read k x = (Return c, x1) /\ serves cs' x1
  end.

(** One connection attempt of [open] on a candidate, by how far it got:
    [socket.socket] raised; the socket was made and [settimeout] raised
    on it; or [connect] was called on it, with the given outcome. *)
Inductive attempt (H : Type) :=
| NoSocket (c : addrinfo) (e : exn)
| NoTimeout (c : addrinfo) (h : H) (e : exn)
| Tried (c : addrinfo) (h : H) (r : outcome unit).

Arguments NoSocket {H} c e.
Arguments NoTimeout {H} c h e.
Arguments Tried {H} c h r.

(** The calls of an attempt: a socket of the candidate's family and type,
    the transport's timeout on it, the [connect] to the candidate's
    address. *)
Definition attempt_calls {H} (tm : option timeout) (a : attempt H)
  : list (sys_call H) :=
  match a with
  | NoSocket c e => [SysSocket (ai_family c) (ai_socktype c) (Raise e)]
  | NoTimeout c h e =>
      [SysSocket (ai_family c) (ai_socktype c) (Return h);
       SysSetTimeout h tm (Raise e)]
  | Tried c h r =>
      [SysSocket (ai_family c) (ai_socktype c) (Return h);
       SysSetTimeout h tm (Return tt);
       SysConnect h (ai_addr c) r]
  end.

(** The candidate, the socket (if one was made) and the outcome of an
    attempt. *)
Definition attempt_candidate {H} (a : attempt H) : addrinfo :=
  match a with NoSocket c _ | NoTimeout c _ _ | Tried c _ _ => c end.

Definition attempt_socket {H} (a : attempt H) : option H :=
  match a with
  | NoSocket _ _ => None
  | NoTimeout _ h _ | Tried _ h _ => Some h
  end.

Definition attempt_outcome {H} (a : attempt H) : outcome unit :=
  match a with
  | NoSocket _ e | NoTimeout _ _ e => Raise e
  | Tried _ _ r => r
  end.

(** An attempt whose [connect] ended with a [socket.error]: the failure
    that the loop of [open] recovers from. *)
Definition attempt_failedb {H} (a : attempt H) : bool :=
  match a with
  | Tried _ _ (Raise (socket_error _)) => true
  | _ => false
  end.

Definition attempt_failed {H} (a : attempt H) : Prop :=
  attempt_failedb a = true.

(** The handle after a sequence of attempts: the socket that was made
    last, or the handle held before when none was made. *)
Definition handle_after {H} (h0 : option H) (atts : list (attempt H))
  : option H :=
  fold_left (fun h a => match attempt_socket a with
                        | Some h' => Some h'
                        | None => h
                        end) atts h0.

(** The attempt on candidate [c] under timeout [tm], as the system
    answers it. *)
Definition attempt_on {W H} {E : SocketEnv W H} (c : addrinfo)
    (tm : option timeout) (w : W) : attempt H * W :=
  match socket_socket (ai_family c) (ai_socktype c) w with
  | (Raise e, w1) => (NoSocket c e, w1)
  | (Return h, w1) =>
      match settimeout h tm w1 with
      | (Raise e, w2) => (NoTimeout c h e, w2)
      | (Return _, w2) =>
          let (rc, w3) := connect h (ai_addr c) w2 in (Tried c h rc, w3)
      end
  end.

(** The transport and the recorded system after attempt [a], which left
    the system in [w]. *)
Definition attempted {W H} (s : TSocket.st (Traced W H) H) (a : attempt H)
    (w : W) : TSocket.st (Traced W H) H :=
  let x := TSocket.self s in
  TSocket.St
    (TSocket.mk (TSocket.host x) (TSocket.port x)
                (handle_after (TSocket.handle x) [a])
                (TSocket._unix_socket x) (TSocket._timeout x))
    {| under := w;
       trace := trace (TSocket.os s) ++ attempt_calls (TSocket._timeout x) a |}.

(** [socket.socket] makes a socket for the candidate. *)
Definition makes_socket {W H} {E : SocketEnv W H} (c : addrinfo) : Prop :=
  forall w : W,
    exists h w', socket_socket (ai_family c) (ai_socktype c) w = (Return h, w').

(** Every socket takes the timeout [tm]. *)
Definition takes_timeout {W H} {E : SocketEnv W H} (tm : option timeout)
  : Prop :=
  forall (h : H) (w : W), exists w', settimeout h tm w = (Return tt, w').

(** What [open] makes of the outcome of its loop. *)
Definition reported {H} (x : TSocket.t H) (r : outcome unit) : outcome unit :=
  match r with
  | Raise (socket_error _) =>
      Raise (TTransportException NOT_OPEN (Some (TSocket.not_open_message x)))
  | _ => r
  end.

(** ** More sample data *)

Module Fixture.

(** A system whose peer has closed: every [recv] returns no bytes. *)
Definition peer_closed : SocketEnv Mock.os nat := {|
  sys_platform := "linux"%string;
  ECONNRESET := 104;
  getaddrinfo := fun _ _ _ _ _ _ w => (Mock.resolved w, w);
  socket_socket := fun f _ => Mock.mock_socket_socket (fun _ => true) f;
  settimeout := fun _ v => Mock.mock_settimeout v;
  connect := fun _ a => Mock.mock_connect [] a;
  recv := fun _ _ w => (Return [], w);
  send := fun _ buf w => (Return (length buf), w);
  sock_close := fun _ w => w
|}.

(** The next [recv] returns five bytes. *)
Definition receiving : Mock.os :=
  Mock.mk (Return Sample.candidates) [Return Sample.hello] 3 0.

(** Name resolution fails. *)
Definition unresolvable : Mock.os :=
  Mock.mk (Raise (socket_error [Errno (-2); ErrText "Name or service not known"]))
          [] 3 0.

(** A buffered transport over a buffered transport. *)
Definition nested : TBufferedTransport.t (TBufferedTransport.t (Logged Script.t)) :=
  TBufferedTransport.init
    (TBufferedTransport.init (Logged.fresh (Script.pieces [])) 4096) 4096.

(** A buffered transport over a socket transport holding socket 0. *)
Definition over_socket
  : TBufferedTransport.t (TSocket.st (Traced Mock.os nat) nat) :=
  TBufferedTransport.init (Sample.holding (Traced.fresh Sample.quiet)) 4096.

(** A buffered transport with a block size of 2 over a source of three
    pieces. *)
Definition chunked : TBufferedTransport.t Script.t :=
  TBufferedTransport.init (Script.pieces Sample.five_in_three) 2.

End Fixture.

(** ** [lang/py/generate.py]: [camel_case]

    Python text is a sequence of code points; the model is the code on
    ASCII text, one character per byte. *)

Module Generate.

(** Every character is an ASCII character. *)
Fixpoint ascii_text (s : string) : Prop :=
  match s with
  | EmptyString => True
  | String c s' => (nat_of_ascii c < 128)%nat /\ ascii_text s'
  end.

Definition is_upper (c : ascii) : bool :=
  ((65 <=? nat_of_ascii c) && (nat_of_ascii c <=? 90))%nat.

Definition is_lower (c : ascii) : bool :=
  ((97 <=? nat_of_ascii c) && (nat_of_ascii c <=? 122))%nat.

(** A character that has an upper and a lower case: a letter. *)
Definition is_cased (c : ascii) : bool := is_upper c || is_lower c.

Definition upper (c : ascii) : ascii :=
  if is_lower c then ascii_of_nat (nat_of_ascii c - 32) else c.

Definition lower (c : ascii) : ascii :=
  if is_upper c then ascii_of_nat (nat_of_ascii c + 32) else c.

(** [str.title()]: a character that follows a letter is lowered, any other
    is raised. *)
Fixpoint title_from (previous_is_cased : bool) (s : string) : string :=
  match s with
  | EmptyString => EmptyString
  | String c s' =>
      String (if previous_is_cased then lower c else upper c)
             (title_from (is_cased c) s')
  end.

Definition title (s : string) : string := title_from false s.

Definition underscore : ascii := "_"%char.

(** [text.split("_")]: the pieces between underscores, empty ones
    included; never an empty list. *)
Fixpoint split (s : string) : list string :=
  match s with
  | EmptyString => [EmptyString]
  | String c s' =>
      if Ascii.eqb c underscore then EmptyString :: split s'
      else match split s' with
           | w :: ws => String c w :: ws
           | [] => [String c EmptyString]
           end
  end.

(** ["".join(parts)] *)
Fixpoint join (parts : list string) : string :=
  match parts with
  | [] => EmptyString
  | w :: ws => (w ++ join ws)%string
  end.

Definition camel_case (text : string) : string :=
  join (map title (split text)).

(** The text without its underscores. *)
Fixpoint without_underscores (s : string) : string :=
  match s with
  | EmptyString => EmptyString
  | String c s' =>
      if Ascii.eqb c underscore then without_underscores s'
      else String c (without_underscores s')
  end.

(** The text with every letter lowered. *)
Fixpoint lowered (s : string) : string :=
  match s with
  | EmptyString => EmptyString
  | String c s' => String (lower c) (lowered s')
  end.

(** The number of underscores of the text. *)
Fixpoint underscores (s : string) : nat :=
  match s with
  | EmptyString => 0
  | String c s' => (if Ascii.eqb c underscore then 1 else 0) + underscores s'
  end.

End Generate.

(** * Properties *)

(** Arithmetic on lengths of concatenations. *)
Ltac len_lia := unfold len in *; repeat rewrite length_app in *; lia.

(** ** Exact-count reads *)

Section ReadAllFacts.
Context {T : Type} {TT : Transport T}.
Import TTransportBase.

(** One turn of the loop of [readAll]. *)
Lemma readAll_loop_step (sz : Z) (buff : bytes) (have : Z) (x : T) :
  readAll_loop sz buff have x =
  if have <? sz then
    match t_read (sz - have) x with
    | (Raise e, x') => (Raise e, x')
    | (Return chunk, x') =>
        if len chunk =? 0 then (Raise EOFError, x')
        else readAll_loop sz (buff ++ chunk) (have + len chunk) x'
    end
  else (Return buff, x).
Proof.
  simp readAll_loop.
  destruct (Z_lt_dec have sz) as [Hlt | Hge]; cbn.
  - rewrite (proj2 (Z.ltb_lt _ _) Hlt).
    destruct (t_read (sz - have) x) as [[chunk | e] x']; cbn; [| reflexivity].
    unfold len.
    destruct (Nat.eq_dec (length chunk) 0) as [E | E]; cbn.
    + rewrite E. reflexivity.
    + destruct (Z.eqb_spec (Z.of_nat (length chunk)) 0); [lia | reflexivity].
  - rewrite (proj2 (Z.ltb_ge _ _)) by lia. reflexivity.
Qed.

Lemma len_app (a b : bytes) : len (a ++ b) = len a + len b.
Proof. unfold len. rewrite length_app. lia. Qed.

Lemma len_nonneg (a : bytes) : 0 <= len a.
Proof. unfold len. lia. Qed.

Lemma len_zero (a : bytes) : len a = 0 <-> a = [].
Proof.
  unfold len. split; intros E.
  - destruct a; [reflexivity | simpl in E; lia].
  - subst a. reflexivity.
Qed.

(** The loop consumes a run of non-empty pieces that does not reach [sz]
    without returning. *)
Lemma readAll_loop_pieces (cs : list bytes) :
  forall sz buff have x x',
    Forall (fun c => c <> []) cs ->
    have + len (concat cs) <= sz ->
    drains (sz - have) x cs x' ->
    readAll_loop sz buff have x =
    readAll_loop sz (buff ++ concat cs) (have + len (concat cs)) x'.
Proof.
  induction cs as [| c cs IH]; intros sz buff have x x' Hne Hle Hd.
  - inversion Hd; subst. cbn. rewrite app_nil_r, Z.add_0_r. reflexivity.
  - inversion Hd as [| n y c' y' cs' y'' Hread Hrest]; subst.
    inversion Hne as [| c' cs' Hc Hcs]; subst.
    cbn [concat] in *. rewrite len_app in *.
    assert (0 < len c).
    { pose proof (len_nonneg c).
      destruct (Z.eq_dec (len c) 0) as [E | E];
        [apply len_zero in E; contradiction | lia]. }
    pose proof (len_nonneg (concat cs)).
    rewrite readAll_loop_step.
    rewrite (proj2 (Z.ltb_lt _ _)) by lia.
    rewrite Hread.
    rewrite (proj2 (Z.eqb_neq _ _)) by lia.
    match goal with
    | Hr : drains _ ?y cs ?z |- _ =>
        replace (sz - have - len c) with (sz - (have + len c)) in Hr by lia;
        rewrite (IH sz (buff ++ c) (have + len c) y z Hcs ltac:(lia) Hr)
    end.
    rewrite <- app_assoc, Z.add_assoc. reflexivity.
Qed.

End ReadAllFacts.

(** The scripted source answers every run of requests with its pieces. *)
Lemma pieces_drains (cs : list bytes) (n : Z) :
  drains n (Script.pieces cs) cs (Script.pieces []).
Proof.
  revert n. induction cs as [| c cs IH]; intros n.
  - constructor.
  - econstructor; [reflexivity | apply IH].
Qed.

Section ReadAllSpec.
Context {T : Type} {TT : Transport T}.
Import TTransportBase.

(** C1. When successive [read] calls yield the non-empty pieces [cs],
    [readAll n] with [n] the total length of the pieces returns exactly
    their concatenation, having consumed them all; and when the pieces
    fall short of [n] and the next [read] returns no bytes, [readAll n]
    raises [EOFError] instead of returning. *)
Theorem readAll_exact_or_eof (n : Z) (cs : list bytes) (x x' : T) :
  Forall (fun c => c <> []) cs ->
  drains n x cs x' ->
  (n = len (concat cs) -> readAll n x = (Return (concat cs), x')) /\
  (len (concat cs) < n ->
   forall x'', t_read (n - len (concat cs)) x' = (Return [], x'') ->
               readAll n x = (Raise EOFError, x'')).
Proof.
  intros Hne Hd. unfold readAll. split.
  - intros E.
    rewrite readAll_loop_pieces with (cs := cs) (x' := x'); try assumption.
    + rewrite readAll_loop_step.
      rewrite (proj2 (Z.ltb_ge _ _)) by lia. reflexivity.
    + lia.
    + rewrite Z.sub_0_r. assumption.
  - intros Hlt x'' Hread.
    rewrite readAll_loop_pieces with (cs := cs) (x' := x'); try assumption.
    + rewrite readAll_loop_step.
      rewrite (proj2 (Z.ltb_lt _ _)) by lia.
      rewrite Z.add_0_l, Hread. reflexivity.
    + lia.
    + rewrite Z.sub_0_r. assumption.
Qed.

End ReadAllSpec.

Lemma readAll_exact_or_eof_witness :
  TTransportBase.readAll 5 (Script.pieces Sample.five_in_three)
  = (Return (concat Sample.five_in_three), Script.pieces [])
  /\ TTransportBase.readAll 8 (Script.pieces Sample.five_in_three)
     = (Raise EOFError, Script.pieces []).
Proof.
  assert (Hne : Forall (fun c : bytes => c <> []) Sample.five_in_three)
    by (repeat constructor; discriminate).
  split.
  - apply (proj1 (readAll_exact_or_eof Hne (pieces_drains Sample.five_in_three 5))).
    reflexivity.
  - apply (proj2 (readAll_exact_or_eof Hne (pieces_drains Sample.five_in_three 8)));
      [reflexivity | reflexivity].
Defined.

(** ** The buffered transport *)

Section BufferedFacts.
Context {T : Type} {TT : Transport T}.
Import TBufferedTransport.

(** Reading from an exhausted buffer gives nothing and moves nothing. *)
Lemma BytesIO_read_exhausted (sz : Z) (b : BytesIO) :
  unread b = [] -> BytesIO_read sz b = ([], b).
Proof.
  unfold unread, BytesIO_read. intros ->.
  replace (if sz <? 0 then [] else firstn (Z.to_nat sz) [])
    with (@nil Byte.byte)
    by (destruct (sz <? 0); [| rewrite firstn_nil]; reflexivity).
  cbn. rewrite Nat.add_0_r. destruct b; reflexivity.
Qed.

(** Reading [k >= 0] bytes takes the first [k] unread ones. *)
Lemma BytesIO_read_firstn (k : Z) (b : BytesIO) :
  0 <= k ->
  BytesIO_read k b =
  (firstn (Z.to_nat k) (unread b),
   {| getvalue := getvalue b;
      tell := tell b + length (firstn (Z.to_nat k) (unread b)) |}).
Proof.
  intros Hk. unfold BytesIO_read, unread.
  rewrite (proj2 (Z.ltb_ge _ _)) by lia. reflexivity.
Qed.

Lemma BytesIO_write_at_end (buf : bytes) (b : BytesIO) :
  at_end b ->
  BytesIO_write buf b =
  {| getvalue := getvalue b ++ buf; tell := length (getvalue b ++ buf) |}.
Proof.
  unfold at_end, BytesIO_write. intros E. rewrite E.
  rewrite firstn_all, skipn_all2 by lia.
  rewrite app_nil_r, length_app. reflexivity.
Qed.

(** Writes only accumulate: no inner call, the pending bytes grow by the
    written ones, in order. *)
Lemma write_all_accumulates (bufs : list bytes) :
  forall s : t T,
    at_end (wbuf s) ->
    write_all bufs s =
    (Return tt,
     mk (trans s)
        {| getvalue := getvalue (wbuf s) ++ concat bufs;
           tell := length (getvalue (wbuf s) ++ concat bufs) |}
        (rbuf s) (rbuf_size s)).
Proof.
  induction bufs as [| b bufs IH]; intros s Hend.
  - cbn. rewrite app_nil_r. unfold at_end in Hend. rewrite <- Hend.
    destruct s as [x [v p] r n]; reflexivity.
  - cbn [write_all]. unfold bind, write.
    rewrite BytesIO_write_at_end by assumption.
    rewrite IH by reflexivity. cbn. rewrite <- app_assoc. reflexivity.
Qed.

End BufferedFacts.

Section BufferedSpec.
Context {T : Type} {TT : Transport T}.
Import TBufferedTransport.

(** C7. With at least [k >= 1] unread bytes in the read buffer, [read k]
    returns the next [k] of them, advances the cursor by [k] and makes no
    call on the inner transport. With no unread byte, [read k] makes
    exactly one inner call, a [read] of [max k blockSize] bytes (which is
    [blockSize] when [k < blockSize]); the answer replaces the read buffer
    and the call serves from the fresh buffer, the first [k] bytes (all of
    them if there are fewer) for [k >= 0]; an exception of that inner
    call is raised to the caller. *)
Theorem read_serves_or_refills (k : Z) (s : t (Logged T)) :
  (1 <= k -> k <= len (unread (rbuf s)) ->
   read k s =
   (Return (firstn (Z.to_nat k) (unread (rbuf s))),
    mk (trans s) (wbuf s)
       {| getvalue := getvalue (rbuf s); tell := tell (rbuf s) + Z.to_nat k |}
       (rbuf_size s)))
  /\
  (unread (rbuf s) = [] ->
   let want := Z.max k (rbuf_size s) in
   (k < rbuf_size s -> want = rbuf_size s) /\
   let (ri, x') := t_read want (target (trans s)) in
   let inner' :=
     {| target := x'; calls := calls (trans s) ++ [CallRead want ri] |} in
   read k s =
   match ri with
   | Return data =>
       (Return (fst (BytesIO_read k (BytesIO_new data))),
        mk inner' (wbuf s) (snd (BytesIO_read k (BytesIO_new data)))
           (rbuf_size s))
   | Raise e => (Raise e, mk inner' (wbuf s) (rbuf s) (rbuf_size s))
   end)
  /\
  (forall data, 0 <= k ->
     BytesIO_read k (BytesIO_new data) =
     (firstn (Z.to_nat k) data,
      {| getvalue := data; tell := length (firstn (Z.to_nat k) data) |})).
Proof.
  split; [| split].
  - intros Hk Hlen.
    unfold read, bind, rbuf_read.
    rewrite BytesIO_read_firstn by lia.
    assert (Hn : length (firstn (Z.to_nat k) (unread (rbuf s))) = Z.to_nat k).
    { apply firstn_length_le. unfold len in Hlen. lia. }
    unfold len. rewrite Hn.
    rewrite (proj2 (Z.eqb_neq _ _)) by lia. reflexivity.
  - intros Hempty want. split; [intros; subst want; lia |].
    unfold read, bind, rbuf_read.
    rewrite (BytesIO_read_exhausted k _ Hempty). cbn.
    fold want. unfold inner, Logged.logging. cbn.
    destruct (t_read want (target (trans s))) as [[data | e] x']; cbn.
    + destruct (BytesIO_read k (BytesIO_new data)); reflexivity.
    + destruct s; reflexivity.
  - intros data Hk. rewrite BytesIO_read_firstn by assumption. reflexivity.
Qed.

(** What one [flush] does, whatever the inner transport answers. *)
Lemma flush_calls (s : t (Logged T)) :
  wbuf (snd (flush s)) = BytesIO_new [] /\
  exists rw,
    calls (trans (snd (flush s))) =
    calls (trans s)
    ++ CallWrite (getvalue (wbuf s)) rw
       :: match rw with
          | Return _ => [CallFlush (fst (flush s))]
          | Raise _ => []
          end
    /\ (forall e, rw = Raise e -> fst (flush s) = Raise e).
Proof.
  unfold flush, bind, get, set_wbuf, inner. cbn. unfold Logged.logging. cbn.
  destruct (t_write (getvalue (wbuf s)) (target (trans s))) as [[[] | e] x1];
    cbn.
  - destruct (t_flush x1) as [rf x2]; cbn.
    split; [reflexivity |].
    exists (Return tt). rewrite <- app_assoc. cbn.
    split; [reflexivity | discriminate].
  - split; [reflexivity |].
    exists (Raise e). split; [reflexivity |].
    intros e' E. inversion E. reflexivity.
Qed.

(** C2. After any number of [write] calls on a buffered transport whose
    write buffer stands at its end, [flush] leaves the write buffer empty
    whatever the inner transport answers (it is reset before the inner
    calls are made), and makes exactly one inner [write] call, carrying
    the pending bytes followed by the written ones in write order, then
    exactly one inner [flush] call, whose outcome is the outcome of
    [flush]; if the inner [write] raises, that exception is the outcome
    and ends the call. A second [flush] right after forwards the empty
    payload only: nothing is left to retry. *)
Theorem flush_forwards_once (bufs : list bytes) (s : t (Logged T)) :
  at_end (wbuf s) ->
  let out := getvalue (wbuf s) ++ concat bufs in
  let s1 := snd (write_all bufs s) in
  let first := flush s1 in
  let second := flush (snd first) in
  trans s1 = trans s /\
  wbuf (snd first) = BytesIO_new [] /\
  (exists rw,
     calls (trans (snd first)) =
     calls (trans s)
     ++ CallWrite out rw
        :: match rw with
           | Return _ => [CallFlush (fst first)]
           | Raise _ => []
           end
     /\ (forall e, rw = Raise e -> fst first = Raise e)) /\
  wbuf (snd second) = BytesIO_new [] /\
  (exists rw,
     calls (trans (snd second)) =
     calls (trans (snd first))
     ++ CallWrite [] rw
        :: match rw with
           | Return _ => [CallFlush (fst second)]
           | Raise _ => []
           end).
Proof.
  intros Hend out s1 first second.
  assert (E1 : s1 = mk (trans s)
                       {| getvalue := out; tell := length out |}
                       (rbuf s) (rbuf_size s)).
  { unfold s1. rewrite write_all_accumulates by assumption. reflexivity. }
  destruct (flush_calls s1) as [Hw1 [rw1 [Hc1 He1]]].
  destruct (flush_calls (snd first)) as [Hw2 [rw2 [Hc2 _]]].
  fold first in Hw1, Hc1, He1. fold second in Hw2, Hc2.
  rewrite Hw1 in Hc2. cbn in Hc2.
  assert (Ht : trans s1 = trans s) by (rewrite E1; reflexivity).
  assert (Hv : getvalue (wbuf s1) = out) by (rewrite E1; reflexivity).
  rewrite Ht, Hv in Hc1.
  repeat split; try assumption.
  - exists rw1. split; assumption.
  - exists rw2. assumption.
Qed.

End BufferedSpec.

(** ** The raw-buffer refill *)

Lemma chunks_read_app (a b : list call) :
  chunks_read (a ++ b) = chunks_read a ++ chunks_read b.
Proof.
  induction a as [| c a IH]; [reflexivity |].
  destruct c as [| | | sz [chunk | e] | |]; cbn; rewrite IH;
    try reflexivity.
  apply app_assoc.
Qed.

Section RefillFacts.
Context {T : Type} {TT : Transport T}.
Import TTransportBase TBufferedTransport.

(** [readAll] on a recorded transport: the record only grows, and what is
    returned is what the recorded reads returned, at least [sz] bytes. *)
Lemma readAll_loop_recorded (m : nat) :
  forall sz buff have (l l' : Logged T) r,
    (Z.to_nat (sz - have) <= m)%nat ->
    have = len buff ->
    readAll_loop sz buff have l = (r, l') ->
    exists news,
      calls l' = calls l ++ news /\
      forall out, r = Return out ->
                  out = buff ++ chunks_read news /\ sz <= len out.
Proof.
  induction m as [| m IH]; intros sz buff have l l' r Hm Hhave Hrun;
    rewrite readAll_loop_step in Hrun.
  - rewrite (proj2 (Z.ltb_ge _ _)) in Hrun by lia.
    inversion Hrun; subst. exists []. rewrite !app_nil_r.
    split; [reflexivity |]. intros out E. inversion E; subst.
    split; [reflexivity | lia].
  - destruct (Z.ltb_spec have sz) as [Hlt | Hge].
    + cbn in Hrun. unfold Logged.logging in Hrun.
      destruct (t_read (sz - have) (target l)) as [[chunk | e] x'].
      * destruct (Z.eqb_spec (len chunk) 0) as [Hz | Hnz].
        -- inversion Hrun; subst. cbn. eexists. split; [reflexivity |].
           discriminate.
        -- pose proof (len_nonneg chunk).
           apply IH in Hrun; [| lia | rewrite len_app; lia].
           destruct Hrun as [news [Hc Hout]]. cbn in Hc.
           exists (CallRead (sz - len buff) (Return chunk) :: news).
           subst have. rewrite Hc, <- app_assoc. split; [reflexivity |].
           intros out E. destruct (Hout out E) as [-> Hsz].
           cbn. split; [symmetry; apply app_assoc | assumption].
      * inversion Hrun; subst. cbn. eexists. split; [reflexivity |].
        discriminate.
    + inversion Hrun; subst. exists []. rewrite !app_nil_r.
      split; [reflexivity |]. intros out E. inversion E; subst.
      split; [reflexivity | lia].
Qed.

Lemma readAll_recorded (sz : Z) (l l' : Logged T) (r : outcome bytes) :
  readAll sz l = (r, l') ->
  exists news,
    calls l' = calls l ++ news /\
    forall out, r = Return out -> out = chunks_read news /\ sz <= len out.
Proof.
  intros Hrun.
  apply (@readAll_loop_recorded (Z.to_nat (sz - 0)) sz [] 0 l l' r) in Hrun;
    [| lia | reflexivity].
  exact Hrun.
Qed.

(** The two stages of [cstringio_refill], spelled out. *)
Lemma cstringio_refill_stages (partialread : bytes) (reqlen : Z) (s : t T) :
  cstringio_refill partialread reqlen s =
  let stage1 :=
    if reqlen <? rbuf_size s
    then match t_read (rbuf_size s) (trans s) with
         | (Return more, x) => (Return (partialread ++ more), x)
         | (Raise e, x) => (Raise e, x)
         end
    else (Return partialread, trans s) in
  match stage1 with
  | (Raise e, x) => (Raise e, set_trans x s)
  | (Return have, x) =>
      let stage2 :=
        if len have <? reqlen
        then match readAll (reqlen - len have) x with
             | (Return more, y) => (Return (have ++ more), y)
             | (Raise e, y) => (Raise e, y)
             end
        else (Return have, x) in
      match stage2 with
      | (Raise e, y) => (Raise e, set_trans y s)
      | (Return all, y) =>
          (Return (BytesIO_new all),
           mk y (wbuf s) (BytesIO_new all) (rbuf_size s))
      end
  end.
Proof.
  unfold cstringio_refill, bind, get, inner, set_rbuf, set_trans, ret.
  cbn.
  destruct (reqlen <? rbuf_size s).
  - destruct (t_read (rbuf_size s) (trans s)) as [[more | e] x]; cbn;
      [| reflexivity].
    destruct (len (partialread ++ more) <? reqlen); cbn; [| reflexivity].
    destruct (readAll (reqlen - len (partialread ++ more)) x)
      as [[more' | e] y]; reflexivity.
  - cbn. destruct (len partialread <? reqlen); cbn.
    + destruct (readAll (reqlen - len partialread) (trans s))
        as [[more' | e] y]; reflexivity.
    + destruct s; reflexivity.
Qed.

End RefillFacts.

Section RefillSpec.
Context {T : Type} {TT : Transport T}.
Import TTransportBase TBufferedTransport.

(** C8, as the code has it. [cstringio_refill partialread reqlen] makes the
    opportunistic inner [read] of [blockSize] bytes, as its first inner
    call, only when [reqlen < blockSize]; an exception of that call is
    raised to the caller, while a short or empty answer is not an error.
    When [reqlen >= blockSize] no such call is made. If the bytes in hand
    are then fewer than [reqlen], the remaining inner calls are those of
    [readAll] for the exact shortfall; otherwise there are none. The
    refill returns when the inner [read], if made, and the [readAll], if
    made, return, and raises the exception of the one that raises. On
    success the returned buffer is the new read buffer, positioned at its
    start, holding [partialread] followed by every byte the inner reads
    returned, at least [reqlen] bytes in all; on failure the read buffer
    is left as it was. *)
Theorem refill_reads_then_rebuilds
    (partialread : bytes) (reqlen : Z) (s : t (Logged T)) :
  let bs := rbuf_size s in
  let res := cstringio_refill partialread reqlen s in
  let after := calls (trans (snd res)) in
  (reqlen < bs ->
   let first := t_read bs (trans s) in
   match fst first with
   | Raise e => res = (Raise e, set_trans (snd first) s)
   | Return more =>
       let have := partialread ++ more in
       if len have <? reqlen
       then
         let rest := readAll (reqlen - len have) (snd first) in
         after = calls (snd rest) /\
         match fst rest with
         | Return more' => fst res = Return (BytesIO_new (have ++ more'))
         | Raise e => fst res = Raise e
         end
       else after = calls (snd first) /\ fst res = Return (BytesIO_new have)
   end) /\
  (bs <= reqlen ->
   if len partialread <? reqlen
   then
     let rest := readAll (reqlen - len partialread) (trans s) in
     after = calls (snd rest) /\
     match fst rest with
     | Return more' => fst res = Return (BytesIO_new (partialread ++ more'))
     | Raise e => fst res = Raise e
     end
   else after = calls (trans s) /\ fst res = Return (BytesIO_new partialread)) /\
  (exists news,
     after = calls (trans s) ++ news /\
     (reqlen < bs -> exists ri rest, news = CallRead bs ri :: rest) /\
     forall b, fst res = Return b ->
               b = BytesIO_new (partialread ++ chunks_read news) /\
               rbuf (snd res) = b /\
               tell b = 0%nat /\
               reqlen <= len (getvalue b)) /\
  (forall e, fst res = Raise e -> rbuf (snd res) = rbuf s).
Proof.
  intros bs res after. unfold after, res.
  rewrite cstringio_refill_stages. fold bs.
  destruct (Z.ltb_spec reqlen bs) as [Hlt | Hge].
  - (* the opportunistic read is made *)
    cbn [t_read Logged.transport]. unfold Logged.logging.
    destruct (t_read bs (target (trans s))) as [[more | e] x] eqn:Eread.
    + cbn [fst snd].
      set (l1 := {| target := x;
                    calls := calls (trans s) ++ [CallRead bs (Return more)] |}).
      destruct (Z.ltb_spec (len (partialread ++ more)) reqlen) as [Hs | Hs].
      * destruct (readAll (reqlen - len (partialread ++ more)) l1)
          as [[more' | e] l2] eqn:Eall;
          destruct (readAll_recorded _ _ Eall) as [news [Hc Hout]];
          cbn [fst snd trans rbuf set_trans].
        -- destruct (Hout more' eq_refl) as [-> Hn].
           repeat split; try reflexivity; try lia; try discriminate.
           exists (CallRead bs (Return more) :: news).
           rewrite Hc. unfold l1. cbn. rewrite <- app_assoc.
           repeat split; try reflexivity.
           ++ intros _. eauto.
           ++ inversion H; subst. cbn. rewrite app_assoc. reflexivity.
           ++ inversion H; subst. reflexivity.
           ++ inversion H; subst. reflexivity.
           ++ inversion H; subst. cbn. len_lia.
        -- repeat split; try reflexivity; try lia; try discriminate.
           exists (CallRead bs (Return more) :: news).
           rewrite Hc. unfold l1. cbn. rewrite <- app_assoc.
           repeat split; try reflexivity; try discriminate.
           intros _. eauto.
      * cbn [fst snd trans rbuf set_trans].
        repeat split; try reflexivity; try lia; try discriminate.
        exists [CallRead bs (Return more)].
        repeat split; try reflexivity.
        -- intros _. eauto.
        -- inversion H; subst. cbn. rewrite app_nil_r. reflexivity.
        -- inversion H; subst. reflexivity.
        -- inversion H; subst. reflexivity.
        -- inversion H; subst. cbn. lia.
    + cbn [fst snd trans rbuf set_trans].
      repeat split; try reflexivity; try lia; try discriminate.
      exists [CallRead bs (Raise e)].
      repeat split; try reflexivity; try discriminate.
      intros _. eauto.
  - (* no opportunistic read *)
    cbv beta iota zeta.
    destruct (Z.ltb_spec (len partialread) reqlen) as [Hs | Hs].
    + destruct (readAll (reqlen - len partialread) (trans s))
        as [[more' | e] l2] eqn:Eall;
        destruct (readAll_recorded _ _ Eall) as [news [Hc Hout]];
        cbn [fst snd trans rbuf set_trans].
      * destruct (Hout more' eq_refl) as [-> Hn].
        repeat split; try reflexivity; try lia; try discriminate.
        exists news. rewrite Hc.
        repeat split; try reflexivity; try lia.
        -- inversion H; subst. reflexivity.
        -- inversion H; subst. reflexivity.
        -- inversion H; subst. reflexivity.
        -- inversion H; subst. cbn. len_lia.
      * repeat split; try reflexivity; try lia; try discriminate.
        exists news. rewrite Hc.
        repeat split; try reflexivity; try lia; try discriminate.
    + cbn [fst snd trans rbuf set_trans].
      repeat split; try reflexivity; try lia; try discriminate.
      exists []. rewrite app_nil_r.
      repeat split; try reflexivity; try lia.
      * inversion H; subst. cbn. rewrite app_nil_r. reflexivity.
      * inversion H; subst. reflexivity.
      * inversion H; subst. reflexivity.
      * inversion H; subst. cbn. lia.
Qed.

End RefillSpec.

(** ** The socket transport *)

Section SocketSpec.
Context {W H : Type} {E : SocketEnv W H}.
Import TSocket.

(** C9. With a Unix path set, whatever the host and port, the resolver
    returns the single candidate of a Unix-domain stream socket at that
    path, and makes no call into the system: host and port are not
    looked at. *)
Theorem resolveAddr_unix
    (host : string) (port : Z) (path : string)
    (handle : option H) (timeout : option timeout) (w : W) :
  _resolveAddr (St (mk host port handle (Some path) timeout) w)
  = (Return [unix_candidate path],
     St (mk host port handle (Some path) timeout) w)
  /\ _resolveAddr (St (init host port (Some path)) w)
     = (Return [unix_candidate path], St (init host port (Some path)) w).
Proof. split; reflexivity. Qed.

(** C10. Without a handle, [write] raises the [NOT_OPEN] transport
    exception, while [read] makes no such check: it fails on the absent
    handle itself, with an [AttributeError], and never with a transport
    exception. *)
Theorem write_checks_handle_read_does_not
    (host : string) (port : Z) (path : option string)
    (timeout : option timeout) (w : W) (buff : bytes) (sz : Z) :
  let s := St (mk host port None path timeout) w in
  write buff s
  = (Raise (TTransportException NOT_OPEN (Some "Transport not open"%string)), s)
  /\ read sz s
     = (Raise (AttributeError "'NoneType' object has no attribute 'recv'"), s)
  /\ forall k m, fst (read sz s) <> Raise (TTransportException k m).
Proof.
  intros s. repeat split. intros k m. cbn. discriminate.
Qed.

(** C4. When the socket's [recv] returns no bytes, [read] raises the
    [END_OF_FILE] transport exception with the message
    ['TSocket read 0 bytes']; when [recv] raises a connection reset on a
    platform that reports a peer's shutdown that way, [read] closes the
    transport and raises the same exception; and [read] never returns an
    empty byte string. *)
Theorem read_empty_is_end_of_file (sz : Z) (s : st W H) :
  (forall h w',
     handle (self s) = Some h ->
     recv h sz (os s) = (Return [], w') ->
     read sz s = (Raise eof_read, St (self s) w')) /\
  (forall h rest w',
     handle (self s) = Some h ->
     recv h sz (os s) = (Raise (socket_error (Errno ECONNRESET :: rest)), w') ->
     peer_shutdown_platform = true ->
     read sz s =
     (Raise eof_read,
      St (mk (host (self s)) (port (self s)) None
             (_unix_socket (self s)) (_timeout (self s)))
         (sock_close h w'))) /\
  (forall b s', read sz s = (Return b, s') -> b <> []).
Proof.
  repeat split.
  - intros h w' Hh Hrecv.
    unfold read, bind, get, try_socket_error, sys. cbn.
    rewrite Hh, Hrecv. reflexivity.
  - intros h rest w' Hh Hrecv Hplat.
    unfold read, bind, get, try_socket_error, sys. cbn.
    rewrite Hh, Hrecv. cbn. rewrite Z.eqb_refl, Hplat.
    unfold close, bind, get, sys_do, set_handle. cbn. rewrite Hh. reflexivity.
  - intros b s'.
    unfold read, bind, get, try_socket_error, sys. cbn.
    destruct (handle (self s)) as [h |] eqn:Hh; [| discriminate].
    destruct (recv h sz (os s)) as [[buff | e] w'].
    + destruct (Z.eqb_spec (len buff) 0) as [Hz | Hnz]; cbn.
      * discriminate.
      * intros Heq. inversion Heq; subst. intros ->. apply Hnz. reflexivity.
    + destruct e as [| k m | args | what | | name]; try discriminate.
      destruct (is_reset args) as [[|] | x]; try discriminate.
      destruct peer_shutdown_platform; [| discriminate].
      unfold close, bind, get, sys_do, set_handle, ret. cbn. rewrite Hh. cbn.
      discriminate.
Qed.

End SocketSpec.

(** *** Writing *)

Section WriteFacts.
Context {W H : Type} {E : SocketEnv W H}.
Import TSocket.

(** One turn of the loop of [write]. *)
Lemma write_loop_step (h : H) (have sent : Z) (buff : bytes) (s : st W H) :
  write_loop h have sent buff s =
  if sent <? have then
    match sys (send h buff) s with
    | (Raise e, s') => (Raise e, s')
    | (Return k, s') =>
        if (k =? 0)%nat then (Raise eof_sent, s')
        else write_loop h have (sent + Z.of_nat k) (skipn k buff) s'
    end
  else (Return tt, s).
Proof.
  simp write_loop.
  destruct (Z_lt_dec sent have) as [Hlt | Hge]; cbn.
  - rewrite (proj2 (Z.ltb_lt _ _) Hlt).
    destruct (sys (send h buff) s) as [[k | e] s']; cbn; [| reflexivity].
    destruct (Nat.eq_dec k 0) as [-> | Hk]; cbn; [reflexivity |].
    rewrite (proj2 (Nat.eqb_neq _ _) Hk). reflexivity.
  - rewrite (proj2 (Z.ltb_ge _ _)) by lia. reflexivity.
Qed.

End WriteFacts.

Section WriteSpec.
Context {W H : Type} {E : SocketEnv W H}.
Import TSocket.

(** What a run of the loop of [write] does on a socket that accepts at
    most what it is offered: it makes [send] calls only; when it returns,
    each call accepted something and together they took the buffer; when
    it raises, the last call accepted nothing or raised. *)
Lemma write_loop_record (m : nat) :
  forall (h : H) (have sent : Z) (buff : bytes)
         (s s' : st (Traced W H) H) (r : outcome unit),
    accepts_at_most_offered (E := E) ->
    (Z.to_nat (have - sent) <= m)%nat ->
    have - sent = len buff ->
    write_loop h have sent buff s = (r, s') ->
    self s' = self s /\
    exists log,
      trace (os s') = trace (os s) ++ send_calls h log /\
      match r with
      | Return _ =>
          all_accepting log /\ transmitted log = buff
          /\ accepted log = length buff
      | Raise e =>
          exists front payload rl,
            log = front ++ [(payload, rl)] /\ all_accepting front /\
            (rl = Return 0%nat /\ e = eof_sent \/ rl = Raise e)
      end.
Proof.
  induction m as [| m IH]; intros h have sent buff s s' r Hwb Hm Hinv Hrun;
    rewrite write_loop_step in Hrun.
  - rewrite (proj2 (Z.ltb_ge _ _)) in Hrun by lia.
    inversion Hrun; subst. split; [reflexivity |].
    exists []. cbn. rewrite app_nil_r. split; [reflexivity |].
    assert (buff = []) by (apply len_zero; pose proof (len_nonneg buff); lia).
    subst buff. repeat split. constructor.
  - destruct (Z.ltb_spec sent have) as [Hlt | Hge].
    + unfold sys in Hrun. cbn in Hrun. unfold Traced.tracing in Hrun.
      destruct (send h buff (under (os s))) as [[k | e] w'] eqn:Hsend.
      * destruct (Nat.eqb_spec k 0) as [-> | Hk].
        -- inversion Hrun; subst. cbn. split; [reflexivity |].
           exists [(buff, Return 0%nat)]. split; [reflexivity |].
           exists [], buff, (Return 0%nat).
           repeat split; [constructor | left; split; reflexivity].
        -- pose proof (Hwb _ _ _ _ _ Hsend) as Hle.
           apply IH in Hrun; try assumption.
           ++ destruct Hrun as [Hself [log [Htr Hr]]]. cbn in Hself, Htr.
              split; [assumption |].
              exists ((buff, Return k) :: log).
              split; [rewrite Htr, <- app_assoc; reflexivity |].
              destruct r as [[] | e].
              ** destruct Hr as [Hacc [Htx Hsum]].
                 repeat split.
                 --- constructor; [exists k; split; [reflexivity | assumption]
                                  | assumption].
                 --- cbn. rewrite Htx. apply firstn_skipn.
                 --- cbn. rewrite Hsum, length_skipn. lia.
              ** destruct Hr as [front [payload [rl [-> [Hacc Hlast]]]]].
                 exists ((buff, Return k) :: front), payload, rl.
                 repeat split; [| assumption].
                 constructor; [exists k; split; [reflexivity | assumption]
                              | assumption].
           ++ lia.
           ++ unfold len in *. rewrite length_skipn. lia.
      * inversion Hrun; subst. cbn. split; [reflexivity |].
        exists [(buff, Raise e)]. split; [reflexivity |].
        exists [], buff, (Raise e).
        repeat split; [constructor | right; reflexivity].
    + inversion Hrun; subst. split; [reflexivity |].
      exists []. cbn. rewrite app_nil_r. split; [reflexivity |].
      assert (buff = []) by (apply len_zero; pose proof (len_nonneg buff); lia).
      subst buff. repeat split. constructor.
Qed.

End WriteSpec.

(** C5. With a live handle on a socket that accepts at most what it is
    offered, [write buff] makes [send] calls only, each on what is left of
    the buffer. When it returns, every call accepted at least one byte,
    the accepted counts sum to the length of the buffer and the accepted
    prefixes concatenate to the buffer. It raises only because the last
    [send] accepted nothing, then with the [END_OF_FILE] transport
    exception, or because that [send] raised. On a socket that accepts at
    most 3 bytes per call, writing any 10 bytes makes exactly 4 [send]
    calls, accepting 3, 3, 3 and 1 bytes. *)
Theorem write_sends_whole_buffer :
  (forall (W H : Type) (E : SocketEnv W H) (h : H) (buff : bytes)
          (s : TSocket.st (Traced W H) H),
      accepts_at_most_offered (E := E) ->
      TSocket.handle (TSocket.self s) = Some h ->
      let res := TSocket.write buff s in
      exists log,
        trace (TSocket.os (snd res))
        = trace (TSocket.os s) ++ send_calls h log /\
        match fst res with
        | Return _ =>
            all_accepting log /\ transmitted log = buff
            /\ accepted log = length buff
        | Raise e =>
            exists front payload rl,
              log = front ++ [(payload, rl)] /\ all_accepting front /\
              (rl = Return 0%nat /\ e = eof_sent \/ rl = Raise e)
        end) /\
  (forall (buff : bytes) (fd : nat) listening resolved inbox next_fd,
      length buff = 10%nat ->
      let w := Mock.mk resolved inbox 3 next_fd in
      let s := TSocket.St (TSocket.mk "localhost" 9090 (Some fd) None None)
                          (Traced.fresh w) in
      let res := TSocket.write (E := Traced.env (E := Mock.linux listening))
                               buff s in
      fst res = Return tt /\
      trace (TSocket.os (snd res))
      = send_calls fd [(buff, Return 3%nat); (skipn 3 buff, Return 3%nat);
                       (skipn 6 buff, Return 3%nat);
                       (skipn 9 buff, Return 1%nat)]).
Proof.
  split.
  - intros W H E h buff s Hwb Hh res.
    unfold res, TSocket.write. rewrite Hh.
    destruct (TSocket.write_loop h (len buff) 0 buff s) as [r s'] eqn:Hrun.
    apply (@write_loop_record W H E (Z.to_nat (len buff - 0))) in Hrun;
      [| assumption | lia | lia].
    destruct Hrun as [_ Hlog]. exact Hlog.
  - intros buff fd listening resolved inbox next_fd Hlen w s res.
    do 11 (destruct buff as [| ? buff]; try discriminate).
    split; vm_compute; reflexivity.
Qed.

(** *** Opening *)

Lemma connects_app {H} (a b : list (sys_call H)) :
  connects (a ++ b) = connects a ++ connects b.
Proof.
  induction a as [| c a IH]; [reflexivity |].
  destruct c as [| | | h x [u | e] | | |]; cbn; rewrite IH; reflexivity.
Qed.

Section OpenFacts.
Context {W H : Type} {E : SocketEnv W H}.
Import TSocket.

(** One turn of the loop of [open], on a recorded system: the attempt on
    the candidate, then the next turn if the [connect] failed with a
    [socket.error] and candidates are left. *)
Lemma open_loop_turn (res : addrinfo) (rest : list addrinfo)
    (s : st (Traced W H) H) :
  open_loop (res :: rest) s =
  let (a, w) := attempt_on res (_timeout (self s)) (under (os s)) in
  let s' := attempted s a w in
  match rest with
  | _ :: _ => if attempt_failedb a then open_loop rest s'
              else (attempt_outcome a, s')
  | [] => (attempt_outcome a, s')
  end.
Proof.
  destruct s as [[ho po hd us tm] [w tr]].
  cbn [open_loop].
  unfold bind, set_handle, get, try_socket_error, sys, attempt_on, attempted.
  cbn. unfold Traced.tracing. cbn.
  destruct (socket_socket (ai_family res) (ai_socktype res) w)
    as [[h | e] w1]; cbn.
  - destruct (settimeout h tm w1) as [[[] | e] w2]; cbn;
      rewrite <- ?app_assoc; cbn.
    + destruct (connect h (ai_addr res) w2) as [[[] | e] w3]; cbn;
        rewrite <- ?app_assoc; cbn.
      * destruct rest; reflexivity.
      * destruct e; destruct rest; reflexivity.
    + destruct rest; reflexivity.
  - destruct rest; reflexivity.
Qed.

Lemma handle_after_cons (h0 : option H) (a : attempt H)
    (atts : list (attempt H)) :
  handle_after h0 (a :: atts) = handle_after (handle_after h0 [a]) atts.
Proof. reflexivity. Qed.

(** The loop of [open] as a sequence of attempts on the candidates in
    order. Every attempt but the last failed at its [connect] with a
    [socket.error]; if the last did so too, no candidate is left. The
    outcome of the loop is the outcome of the last attempt. *)
Lemma open_loop_attempt_calls (res0 : list addrinfo) :
  forall (s s' : st (Traced W H) H) (r : outcome unit),
    open_loop res0 s = (r, s') ->
    same_config (self s') (self s) /\
    exists atts,
      trace (os s')
      = trace (os s) ++ flat_map (attempt_calls (_timeout (self s))) atts /\
      map attempt_candidate atts = firstn (length atts) res0 /\
      (res0 <> [] -> atts <> []) /\
      Forall attempt_failed (removelast atts) /\
      (Forall attempt_failed atts -> length atts = length res0) /\
      handle (self s') = handle_after (handle (self s)) atts /\
      r = last (map attempt_outcome atts) (Return tt).
Proof.
  induction res0 as [| res rest IH]; intros s s' r Hrun.
  - inversion Hrun; subst. split; [repeat split |].
    exists []. cbn. rewrite app_nil_r.
    repeat split; try constructor.
    intros Hne. contradiction Hne. reflexivity.
  - rewrite open_loop_turn in Hrun.
    destruct (attempt_on res (_timeout (self s)) (under (os s)))
      as [a w] eqn:Hatt.
    assert (Hc : attempt_candidate a = res).
    { unfold attempt_on in Hatt.
      destruct (socket_socket _ _ _) as [[h | e] w1];
        [| inversion Hatt; reflexivity].
      destruct (settimeout _ _ _) as [[[] | e] w2];
        [| inversion Hatt; reflexivity].
      destruct (connect _ _ _) as [rc w3]. inversion Hatt; reflexivity. }
    cbv zeta in Hrun.
    assert (Hone :
      (attempt_failed a -> rest = []) ->
      (r, s') = (attempt_outcome a, attempted s a w) ->
      same_config (self s') (self s) /\
      exists atts,
        trace (os s')
        = trace (os s) ++ flat_map (attempt_calls (_timeout (self s))) atts /\
        map attempt_candidate atts = firstn (length atts) (res :: rest) /\
        (res :: rest <> [] -> atts <> []) /\
        Forall attempt_failed (removelast atts) /\
        (Forall attempt_failed atts -> length atts = length (res :: rest)) /\
        handle (self s') = handle_after (handle (self s)) atts /\
        r = last (map attempt_outcome atts) (Return tt)).
    { intros Hstop Heq. inversion Heq; subst r s'.
      split; [repeat split |].
      exists [a]. cbn. rewrite ?app_nil_r, Hc.
      repeat split; try constructor; try discriminate.
      intros Hall. inversion Hall; subst.
      rewrite Hstop by assumption. reflexivity. }
    destruct rest as [| res' rest'].
    + apply Hone; [reflexivity | symmetry; exact Hrun].
    + destruct (attempt_failedb a) eqn:Hf.
      * clear Hone. apply IH in Hrun.
        destruct Hrun as [Hcfg [atts [Htr [Hmap [Hne [Hfail [Hall [Hh Hr]]]]]]]].
        cbn [attempted self os trace _timeout handle] in Htr, Hh, Hcfg.
        split; [exact Hcfg |].
        assert (Hatts : atts <> []) by (apply Hne; discriminate).
        exists (a :: atts).
        split; [cbn [flat_map]; rewrite Htr, <- app_assoc; reflexivity |].
        split; [cbn; rewrite Hmap, Hc; reflexivity |].
        split; [discriminate |].
        split.
        { destruct atts as [| a' atts]; [contradiction Hatts; reflexivity |].
          cbn [removelast]. constructor; [exact Hf | exact Hfail]. }
        split.
        { intros Hall'. inversion Hall'; subst. cbn [length].
          rewrite Hall by assumption. reflexivity. }
        split; [rewrite handle_after_cons; exact Hh |].
        rewrite Hr. cbn [map].
        destruct atts as [| a' atts]; [contradiction Hatts; reflexivity |].
        reflexivity.
      * apply Hone; [| symmetry; exact Hrun].
        unfold attempt_failed. rewrite Hf. discriminate.
Qed.

(** An attempt on a system that makes the socket and sets the timeout
    gets as far as the [connect]. *)
Lemma attempt_on_refused (c : addrinfo) (tm : option timeout) (w : W) :
  makes_socket (E := E) c -> takes_timeout (E := E) tm ->
  refuses (E := E) (ai_addr c) ->
  exists h args w', attempt_on c tm w = (Tried c h (Raise (socket_error args)), w').
Proof.
  intros Hm Ht Hr. unfold attempt_on.
  destruct (Hm w) as [h [w1 ->]]. destruct (Ht h w1) as [w2 ->].
  destruct (Hr h w2) as [args [w3 ->]]. eauto.
Qed.

Lemma attempt_on_accepted (c : addrinfo) (tm : option timeout) (w : W) :
  makes_socket (E := E) c -> takes_timeout (E := E) tm ->
  accepts (E := E) (ai_addr c) ->
  exists h w', attempt_on c tm w = (Tried c h (Return tt), w').
Proof.
  intros Hm Ht Ha. unfold attempt_on.
  destruct (Hm w) as [h [w1 ->]]. destruct (Ht h w1) as [w2 ->].
  destruct (Ha h w2) as [w3 ->]. eauto.
Qed.

(** When only the last candidate can be connected to, the loop reaches
    it. *)
Lemma open_loop_reaches_last (bad : list addrinfo) (good : addrinfo) :
  forall s : st (Traced W H) H,
    Forall (makes_socket (E := E)) (bad ++ [good]) ->
    takes_timeout (E := E) (_timeout (self s)) ->
    Forall (fun c => refuses (E := E) (ai_addr c)) bad ->
    accepts (E := E) (ai_addr good) ->
    exists s' news h,
      open_loop (bad ++ [good]) s = (Return tt, s') /\
      trace (os s') = trace (os s) ++ news /\
      connects news = fails bad ++ [(ai_addr good, true)] /\
      handle (self s') = Some h /\
      In (SysConnect h (ai_addr good) (Return tt)) news.
Proof.
  induction bad as [| c bad IH]; intros s Hmk Htm Hbad Hgood.
  - inversion Hmk as [| c' l' Hm _]; subst.
    destruct (@attempt_on_accepted good (_timeout (self s)) (under (os s))
                Hm Htm Hgood) as [h [w3 Hatt]].
    cbn [app]. rewrite open_loop_turn, Hatt.
    do 3 eexists. split; [reflexivity |]. cbn.
    repeat split. right. right. left. reflexivity.
  - inversion Hbad as [| c' bad' Hc Hrest]; subst.
    inversion Hmk as [| c' l' Hm Hmk']; subst.
    destruct (@attempt_on_refused c (_timeout (self s)) (under (os s))
                Hm Htm Hc) as [h [args [w3 Hatt]]].
    destruct (IH (attempted s (Tried c h (Raise (socket_error args))) w3)
                 Hmk' Htm Hrest Hgood)
      as [s' [news [h' [Hrun [Htr [Hcs [Hh Hin]]]]]]].
    exists s'. eexists. exists h'.
    split.
    { cbn [app]. rewrite open_loop_turn, Hatt. cbn [attempt_failedb].
      destruct (bad ++ [good]) eqn:Hy;
        [destruct bad; discriminate | exact Hrun]. }
    cbn in Htr.
    split; [rewrite Htr, <- app_assoc; reflexivity |].
    rewrite connects_app, Hcs. cbn.
    repeat split; [assumption |].
    right. right. right. assumption.
Qed.

(** Up to the resolver, [open] is its loop, with a [socket.error] turned
    into the [NOT_OPEN] transport exception. *)
Lemma open_after_resolve (s s1 : st W H) (res0 : list addrinfo) :
  _resolveAddr s = (Return res0, s1) ->
  self s1 = self s /\
  open s =
  match open_loop res0 s1 with
  | (Raise (socket_error _), s') =>
      (Raise (TTransportException NOT_OPEN (Some (not_open_message (self s')))),
       s')
  | r => r
  end.
Proof.
  intros Hres. split.
  - unfold _resolveAddr, bind, get, sys, ret in Hres.
    destruct (_unix_socket (self s)).
    + inversion Hres; reflexivity.
    + destruct (getaddrinfo _ _ _ _ _ _ (os s)) as [[l | e] w];
        inversion Hres; reflexivity.
  - unfold open, try_socket_error, bind at 1. rewrite Hres.
    destruct (open_loop res0 s1) as [[[] | e] s']; [reflexivity |].
    destruct e; reflexivity.
Qed.

Lemma not_open_message_config (x y : t H) :
  same_config x y -> not_open_message x = not_open_message y.
Proof.
  intros [Hh [Hp [Hu _]]]. unfold not_open_message. rewrite Hh, Hp, Hu.
  reflexivity.
Qed.

End OpenFacts.

Section OpenAttempts.
Context {W H : Type} {E : SocketEnv W H}.
Import TSocket.

(** [open] over resolved candidates, as a sequence of attempts. *)
Lemma open_attempts (s s1 : st (Traced W H) H) (res0 : list addrinfo) :
  _resolveAddr s = (Return res0, s1) ->
  same_config (self (snd (open s))) (self s) /\
  exists atts,
    trace (os (snd (open s)))
    = trace (os s1) ++ flat_map (attempt_calls (_timeout (self s))) atts /\
    map attempt_candidate atts = firstn (length atts) res0 /\
    (res0 <> [] -> atts <> []) /\
    Forall attempt_failed (removelast atts) /\
    (Forall attempt_failed atts -> length atts = length res0) /\
    handle (self (snd (open s))) = handle_after (handle (self s)) atts /\
    fst (open s)
    = reported (self s) (last (map attempt_outcome atts) (Return tt)).
Proof.
  intros Hres.
  destruct (open_after_resolve s Hres) as [Hself Hopen].
  destruct (open_loop res0 s1) as [r s'] eqn:Hrun.
  apply open_loop_attempt_calls in Hrun.
  destruct Hrun as [Hcfg [atts [Htr [Hmap [Hne [Hfail [Hall [Hh Hr]]]]]]]].
  rewrite Hself in Htr, Hh, Hcfg.
  assert (Hout : open s = (reported (self s) r, s')).
  { rewrite Hopen. destruct r as [[] | e]; [reflexivity |].
    destruct e; try reflexivity. cbn.
    rewrite (not_open_message_config Hcfg). reflexivity. }
  rewrite Hout. cbn [fst snd]. split; [exact Hcfg |].
  exists atts. rewrite <- Hr. repeat split; assumption.
Qed.

Lemma handle_after_some (atts : list (attempt H)) :
  forall h0 : option H, h0 <> None -> handle_after h0 atts <> None.
Proof.
  induction atts as [| a atts IH]; intros h0 Hh; [exact Hh |].
  rewrite handle_after_cons. apply IH. cbn.
  destruct (attempt_socket a); [discriminate | exact Hh].
Qed.

Lemma handle_after_connect (tm : option timeout) (atts : list (attempt H)) :
  forall h0 : option H,
    connects (flat_map (attempt_calls tm) atts) <> [] ->
    handle_after h0 atts <> None.
Proof.
  induction atts as [| a atts IH]; intros h0 Hc; [contradiction Hc; reflexivity |].
  rewrite handle_after_cons.
  destruct a as [c e | c h e | c h r].
  - apply IH. exact Hc.
  - apply handle_after_some. discriminate.
  - apply handle_after_some. discriminate.
Qed.

End OpenAttempts.

Section OpenSpec.
Context {W H : Type} {E : SocketEnv W H}.
Import TSocket.

(** C6, as the code has it. Over the candidates [res0] that the resolver
    returned, what [open] does is a sequence of attempts on the candidates
    in order, an attempt being the creation of a socket, the setting of
    the timeout on it and the [connect]. [open] goes on to the next
    candidate only after a [connect] that failed with a [socket.error],
    and only if a candidate is left. Its outcome is that of the last
    attempt, except that a [socket.error] is reported as the [NOT_OPEN]
    transport exception whose message names the Unix path, when one is
    set and not empty, or the host and port: so it is after a
    [socket.error] of the last candidate's [connect], or of the creation
    of a socket or the setting of the timeout for any candidate, later
    candidates being left untried. Any other exception is raised
    unchanged. On a system that makes the sockets and sets the timeout,
    when only the last of [N] candidates can be connected to, [open]
    returns, holding the socket connected to that candidate, after
    exactly [N - 1] failed [connect] calls. *)
Theorem open_tries_candidates_in_order
    (s s1 : st (Traced W H) H) (res0 : list addrinfo) :
  _resolveAddr s = (Return res0, s1) ->
  let res := open s in
  (exists atts,
     trace (os (snd res))
     = trace (os s1) ++ flat_map (attempt_calls (_timeout (self s))) atts /\
     map attempt_candidate atts = firstn (length atts) res0 /\
     (res0 <> [] -> atts <> []) /\
     Forall attempt_failed (removelast atts) /\
     (Forall attempt_failed atts -> length atts = length res0) /\
     fst res = reported (self s) (last (map attempt_outcome atts) (Return tt))) /\
  (forall bad good,
     res0 = bad ++ [good] ->
     Forall (makes_socket (E := E)) res0 ->
     takes_timeout (E := E) (_timeout (self s)) ->
     Forall (fun c => refuses (E := E) (ai_addr c)) bad ->
     accepts (E := E) (ai_addr good) ->
     fst res = Return tt /\
     exists news h,
       trace (os (snd res)) = trace (os s1) ++ news /\
       connects news = fails bad ++ [(ai_addr good, true)] /\
       length (fails bad) = (length res0 - 1)%nat /\
       handle (self (snd res)) = Some h /\
       In (SysConnect h (ai_addr good) (Return tt)) news) /\
  (forall c path,
     _unix_socket (self s) = Some (String c path) ->
     not_open_message (self s)
     = ("Could not connect to socket " ++ String c path)%string) /\
  (_unix_socket (self s) = None ->
   not_open_message (self s)
   = ("Could not connect to " ++ host (self s) ++ ":"
        ++ format_d (port (self s)))%string).
Proof.
  intros Hres res.
  split; [| split; [| split]].
  - destruct (open_attempts s Hres)
      as [_ [atts [Htr [Hmap [Hne [Hfail [Hall [_ Hr]]]]]]]].
    exists atts. unfold res. repeat split; assumption.
  - intros bad good Hr0 Hmk Htm Hbad Hgood.
    destruct (open_after_resolve s Hres) as [Hself Hopen].
    unfold res. rewrite Hopen. subst res0. rewrite <- Hself in Htm.
    destruct (@open_loop_reaches_last W H E bad good s1 Hmk Htm Hbad Hgood)
      as [s' [news [h [Hrun [Htr [Hc [Hh Hin]]]]]]].
    rewrite Hrun. cbn. split; [reflexivity |].
    exists news, h.
    repeat split; try assumption.
    unfold fails. rewrite length_map, length_app. cbn. lia.
  - intros c path Hu. unfold not_open_message. rewrite Hu. reflexivity.
  - intros Hu. unfold not_open_message. rewrite Hu. reflexivity.
Qed.

(** Whenever [open] raises after a [connect], the socket of the last
    attempt stays in [handle]. *)
Lemma failed_open_keeps_handle
    (s s1 : st (Traced W H) H) (res0 : list addrinfo) (e : exn)
    (news : list (sys_call H)) :
  _resolveAddr s = (Return res0, s1) ->
  fst (open s) = Raise e ->
  trace (os (snd (open s))) = trace (os s1) ++ news ->
  connects news <> [] ->
  handle (self (snd (open s))) <> None /\
  fst (isOpen (snd (open s))) = Return true.
Proof.
  intros Hres _ Hnews Hc.
  destruct (open_attempts s Hres) as [_ [atts [Htr [_ [_ [_ [_ [Hh _]]]]]]]].
  rewrite Htr in Hnews. apply app_inv_head in Hnews. subst news.
  pose proof (handle_after_connect _ _ (handle (self s)) Hc) as Hsome.
  rewrite <- Hh in Hsome.
  split; [assumption |].
  unfold isOpen, bind, get, ret. cbn.
  destruct (handle (self (snd (open s)))); [reflexivity | contradiction].
Qed.

End OpenSpec.

(** C3, on the code. A transport whose only candidate refuses the
    connection: [open] raises the [NOT_OPEN] transport exception, and yet
    the socket of the failed attempt stays in [handle], so that [isOpen]
    answers [True]. *)
Theorem failed_open_reports_open :
  let s := TSocket.St TSocket.default Sample.one_candidate in
  let res := TSocket.open (E := Mock.linux []) s in
  fst res = Raise (TTransportException NOT_OPEN
                     (Some "Could not connect to localhost:9090"%string)) /\
  TSocket.handle (TSocket.self (snd res)) = Some 0%nat /\
  fst (TSocket.isOpen (snd res)) = Return true.
Proof. repeat split. Qed.

(** ** The properties at sample inputs *)

Lemma flush_forwards_once_witness :
  let s := Sample.trickling in
  at_end (TBufferedTransport.wbuf s) /\
  TBufferedTransport.wbuf
    (snd (TBufferedTransport.flush
            (snd (write_all [Sample.hello; Sample.eight] s))))
  = BytesIO_new [].
Proof.
  split; [reflexivity |].
  exact (proj1 (proj2 (flush_forwards_once [Sample.hello; Sample.eight]
                         Sample.trickling eq_refl))).
Defined.

Lemma read_serves_or_refills_witness :
  TBufferedTransport.read 2 Sample.half_read
  = (Return [Byte.x6c; Byte.x6c],
     TBufferedTransport.mk (Logged.fresh (Script.pieces [Sample.eight]))
       (BytesIO_new []) {| getvalue := Sample.hello; tell := 4 |} 4096)
  /\ Z.max 2 4096 = 4096.
Proof.
  split.
  - apply (proj1 (read_serves_or_refills 2 Sample.half_read));
      [lia | vm_compute; discriminate].
  - apply (proj1 (proj1 (proj2 (read_serves_or_refills 2 Sample.drained))
                    eq_refl)).
    reflexivity.
Defined.

Lemma refill_reads_then_rebuilds_witness :
  exists ri rest,
    calls (TBufferedTransport.trans
             (snd (TBufferedTransport.cstringio_refill
                     [Byte.x68; Byte.x65] 5 Sample.trickling)))
    = [] ++ CallRead 4096 ri :: rest.
Proof.
  destruct (proj1 (proj2 (proj2 (refill_reads_then_rebuilds
                                   [Byte.x68; Byte.x65] 5 Sample.trickling))))
    as [news [Hc [Hfirst _]]].
  destruct (Hfirst ltac:(reflexivity)) as [ri [rest Hn]].
  exists ri, rest. rewrite Hn in Hc. exact Hc.
Defined.

(** The guard of [cstringio_refill] at work: asked for 8 bytes with a block
    size of 4, the refill makes no read of 4 bytes; its only inner call is
    the read of 8 bytes that [readAll] makes. *)
Lemma refill_without_opportunistic_read :
  let res := TBufferedTransport.cstringio_refill [] 8 Sample.small_block in
  fst res = Return (BytesIO_new Sample.eight) /\
  calls (TBufferedTransport.trans (snd res))
  = [CallRead 8 (Return Sample.eight)] /\
  ~ (exists r rest,
       calls (TBufferedTransport.trans (snd res)) = CallRead 4 r :: rest).
Proof.
  repeat split. intros [r [rest Habs]]. vm_compute in Habs. discriminate.
Qed.

Lemma read_empty_is_end_of_file_witness :
  TSocket.read (E := Mock.darwin []) 16 (Sample.holding Sample.hung_up)
  = (Raise eof_read, Sample.holding Sample.quiet)
  /\ fst (TSocket.read (E := Mock.darwin []) 16
            (Sample.holding Sample.reset_by_peer))
     = Raise eof_read.
Proof.
  split.
  - apply (proj1 (@read_empty_is_end_of_file Mock.os nat (Mock.darwin []) 16
                    (Sample.holding Sample.hung_up)) 0%nat Sample.quiet);
      reflexivity.
  - rewrite (proj1 (proj2 (@read_empty_is_end_of_file Mock.os nat
                             (Mock.darwin []) 16
                             (Sample.holding Sample.reset_by_peer)))
               0%nat [ErrText "Connection reset by peer"] Sample.quiet);
      reflexivity.
Defined.

Lemma mock_accepts_at_most_offered (listening : list sockaddr) :
  accepts_at_most_offered (E := Mock.linux listening).
Proof.
  intros h buf w w' k Hsend. cbn in Hsend. inversion Hsend. lia.
Defined.

Lemma write_sends_whole_buffer_witness :
  (exists log,
      trace (TSocket.os
               (snd (TSocket.write (E := Traced.env (E := Mock.linux []))
                       Sample.ten
                       (Sample.holding (Traced.fresh Sample.quiet)))))
      = [] ++ send_calls 0%nat log)
  /\ fst (TSocket.write (E := Traced.env (E := Mock.linux [])) Sample.ten
            (Sample.holding (Traced.fresh Sample.quiet)))
     = Return tt.
Proof.
  split.
  - destruct (proj1 write_sends_whole_buffer Mock.os nat (Mock.linux [])
                0%nat Sample.ten (Sample.holding (Traced.fresh Sample.quiet))
                (@mock_accepts_at_most_offered []) eq_refl)
      as [log [Htr _]].
    exists log. exact Htr.
  - exact (proj1 (proj2 write_sends_whole_buffer Sample.ten 0%nat []
                    (Return Sample.candidates) [] 0%nat eq_refl)).
Defined.

Lemma mock_makes_socket (listening : list sockaddr) (c : addrinfo) :
  makes_socket (E := Mock.linux listening) c.
Proof. intros w. do 2 eexists. reflexivity. Defined.

Lemma mock_takes_no_timeout (listening : list sockaddr) :
  takes_timeout (E := Mock.linux listening) None.
Proof. intros h w. eexists. reflexivity. Defined.

Lemma open_tries_candidates_in_order_witness :
  fst (TSocket.open (E := Traced.env (E := Mock.linux Sample.only_last))
         (TSocket.St TSocket.default (Traced.fresh Sample.quiet)))
  = Return tt.
Proof.
  refine (proj1 (proj1 (proj2
    (@open_tries_candidates_in_order Mock.os nat (Mock.linux Sample.only_last)
       (TSocket.St TSocket.default (Traced.fresh Sample.quiet))
       _ Sample.candidates eq_refl))
    [Mock.tcp "10.0.0.1" 9090; Mock.tcp "10.0.0.2" 9090]
    (Mock.tcp "10.0.0.3" 9090) eq_refl _ _ _ _)).
  - repeat constructor; apply mock_makes_socket.
  - apply mock_takes_no_timeout.
  - repeat constructor; intros h w; do 2 eexists; reflexivity.
  - intros h w. eexists. reflexivity.
Defined.

(** On a host without IPv6 whose resolver lists an IPv6 candidate first,
    the creation of the socket for that candidate fails with a
    [socket.error]. [open] then raises the [NOT_OPEN] transport exception
    at once, without a single [connect], although the last candidate
    could be connected to and was not tried. *)
Lemma open_gives_up_before_connecting :
  let res := TSocket.open (E := Traced.env (E := Sample.no_ipv6))
               (TSocket.St TSocket.default (Traced.fresh Sample.dual_stack)) in
  makes_socket (E := Sample.no_ipv6) (Mock.tcp "127.0.0.1" 9090) /\
  takes_timeout (E := Sample.no_ipv6) None /\
  accepts (E := Sample.no_ipv6) (InetAddr "127.0.0.1" 9090) /\
  fst res = Raise (TTransportException NOT_OPEN
                     (Some "Could not connect to localhost:9090"%string)) /\
  trace (TSocket.os (snd res))
  = [SysGetaddrinfo nat "localhost" 9090 
       (Return [Mock.tcp6 "::1" 9090; Mock.tcp "127.0.0.1" 9090]);
     SysSocket AF_INET6 SOCK_STREAM (Raise Mock.unsupported)] /\
  connects (trace (TSocket.os (snd res))) = [].
Proof.
  split; [intros w; do 2 eexists; reflexivity |].
  split; [intros h w; eexists; reflexivity |].
  split; [intros h w; eexists; reflexivity |].
  repeat split.
Qed.

(** * Further properties *)

(** ** More on exact-count reads *)

Section ReadAllMore.
Context {T : Type} {TT : Transport T}.
Import TTransportBase.

(** What the loop of [readAll] returns extends what it had collected and
    reaches [sz]. *)
Lemma readAll_loop_reaches (m : nat) :
  forall sz buff have (x x' : T) out,
    (Z.to_nat (sz - have) <= m)%nat ->
    have = len buff ->
    readAll_loop sz buff have x = (Return out, x') ->
    sz <= len out /\ len buff <= len out.
Proof.
  induction m as [| m IH]; intros sz buff have x x' out Hm Hhave Hrun;
    rewrite readAll_loop_step in Hrun.
  - rewrite (proj2 (Z.ltb_ge _ _)) in Hrun by lia.
    inversion Hrun; subst. lia.
  - destruct (Z.ltb_spec have sz) as [Hlt | Hge].
    + destruct (t_read (sz - have) x) as [[chunk | e] x1]; [| discriminate].
      destruct (Z.eqb_spec (len chunk) 0) as [Hz | Hnz]; [discriminate |].
      pose proof (len_nonneg chunk).
      apply IH in Hrun; [| lia | rewrite len_app; lia].
      rewrite len_app in Hrun. lia.
    + inversion Hrun; subst. lia.
Qed.

(** On a transport that returns at most what it is asked for, the loop
    never collects more than [sz] bytes. *)
Lemma readAll_loop_exact (m : nat) :
  reads_at_most_asked (T := T) ->
  forall sz buff have (x x' : T) out,
    (Z.to_nat (sz - have) <= m)%nat ->
    have = len buff ->
    have <= Z.max 0 sz ->
    readAll_loop sz buff have x = (Return out, x') ->
    len out = Z.max 0 sz.
Proof.
  intros Hb.
  induction m as [| m IH]; intros sz buff have x x' out Hm Hhave Hle Hrun;
    rewrite readAll_loop_step in Hrun.
  - rewrite (proj2 (Z.ltb_ge _ _)) in Hrun by lia.
    inversion Hrun; subst. pose proof (len_nonneg out). lia.
  - destruct (Z.ltb_spec have sz) as [Hlt | Hge].
    + destruct (t_read (sz - have) x) as [[chunk | e] x1] eqn:Hread;
        [| discriminate].
      destruct (Z.eqb_spec (len chunk) 0) as [Hz | Hnz]; [discriminate |].
      pose proof (len_nonneg chunk).
      pose proof (Hb (sz - have) _ _ _ ltac:(lia) Hread).
      apply IH in Hrun; [assumption | lia | rewrite len_app; lia | lia].
    + inversion Hrun; subst. pose proof (len_nonneg out). lia.
Qed.

(** X1. [readAll sz] with [sz <= 0] returns no bytes and leaves the
    transport alone. Whenever [readAll sz] returns, it returns at least
    [sz] bytes; and over a transport whose [read] returns at most what it
    is asked for, exactly [sz] bytes (none for a negative [sz]). *)
Theorem readAll_length (sz : Z) (x : T) :
  (sz <= 0 -> readAll sz x = (Return [], x)) /\
  match fst (readAll sz x) with
  | Return out => sz <= len out
  | Raise _ => True
  end /\
  (reads_at_most_asked (T := T) ->
   match fst (readAll sz x) with
   | Return out => len out = Z.max 0 sz
   | Raise _ => True
   end).
Proof.
  unfold readAll. repeat split.
  - intros Hsz. rewrite readAll_loop_step.
    rewrite (proj2 (Z.ltb_ge _ _)) by lia. reflexivity.
  - destruct (readAll_loop sz [] 0 x) as [[out | e] x'] eqn:Hrun; cbn;
      [| exact I].
    apply (@readAll_loop_reaches (Z.to_nat (sz - 0))) in Hrun;
      [lia | lia | reflexivity].
  - intros Hb.
    destruct (readAll_loop sz [] 0 x) as [[out | e] x'] eqn:Hrun; cbn;
      [| exact I].
    apply (@readAll_loop_exact (Z.to_nat (sz - 0)) Hb) in Hrun;
      [assumption | lia | reflexivity | lia].
Qed.

End ReadAllMore.

(** ** More on the buffered transport *)

Lemma firstn_skipn_length {A} (n : nat) (l : list A) :
  firstn n l ++ skipn (length (firstn n l)) l = l.
Proof.
  revert l. induction n as [| n IH]; intros [| a l]; cbn; try reflexivity.
  rewrite IH. reflexivity.
Qed.

(** Whatever is read from a buffer, followed by what stays unread, is what
    was unread. *)
Lemma BytesIO_read_splits (k : Z) (b : BytesIO) :
  fst (BytesIO_read k b) ++ unread (snd (BytesIO_read k b)) = unread b.
Proof.
  unfold BytesIO_read, unread. cbn.
  rewrite Nat.add_comm, <- skipn_skipn.
  destruct (k <? 0).
  - rewrite skipn_all, app_nil_r. reflexivity.
  - apply firstn_skipn_length.
Qed.

(** A read of [k <> 0] bytes comes back empty only from an exhausted
    buffer. *)
Lemma BytesIO_read_nothing (k : Z) (b : BytesIO) :
  k <> 0 -> fst (BytesIO_read k b) = [] -> unread b = [].
Proof.
  unfold BytesIO_read, unread. cbn. intros Hk.
  destruct (Z.ltb_spec k 0) as [Hneg | Hpos]; [trivial |].
  destruct (skipn (tell b) (getvalue b)) as [| a l]; [reflexivity |].
  destruct (Z.to_nat k) eqn:Hn; [lia | discriminate].
Qed.

Lemma BytesIO_read_at_most (k : Z) (b : BytesIO) :
  0 <= k -> len (fst (BytesIO_read k b)) <= k.
Proof.
  intros Hk. unfold BytesIO_read. cbn.
  rewrite (proj2 (Z.ltb_ge _ _)) by lia.
  unfold len. rewrite length_firstn. lia.
Qed.

Section BufferedMore.
Context {T : Type} {TT : Transport T}.
Import TBufferedTransport.

(** The two ways of [read], spelled out. *)
Lemma read_cases (k : Z) (s : t T) :
  read k s =
  let got := fst (BytesIO_read k (rbuf s)) in
  let b := snd (BytesIO_read k (rbuf s)) in
  if len got =? 0 then
    match t_read (Z.max k (rbuf_size s)) (trans s) with
    | (Return data, x) =>
        (Return (fst (BytesIO_read k (BytesIO_new data))),
         mk x (wbuf s) (snd (BytesIO_read k (BytesIO_new data))) (rbuf_size s))
    | (Raise e, x) => (Raise e, mk x (wbuf s) b (rbuf_size s))
    end
  else (Return got, mk (trans s) (wbuf s) b (rbuf_size s)).
Proof.
  unfold read, bind, rbuf_read, get, inner, set_rbuf, set_trans, ret.
  destruct (BytesIO_read k (rbuf s)) as [got b] eqn:Hb. cbn.
  destruct (len got =? 0); cbn; [| reflexivity].
  destruct (t_read (Z.max k (rbuf_size s)) (trans s)) as [[data | e] x]; cbn;
    [| reflexivity].
  destruct (BytesIO_read k (BytesIO_new data)); reflexivity.
Qed.

(** The buffered [read] returns at most what it is asked for, whatever the
    inner transport returns. *)
Lemma buffered_reads_at_most_asked : reads_at_most_asked (T := t T).
Proof.
  intros k s s' c Hk Hread.
  change (read k s = (Return c, s')) in Hread. rewrite read_cases in Hread.
  cbv zeta in Hread.
  destruct (len (fst (BytesIO_read k (rbuf s))) =? 0).
  - destruct (t_read (Z.max k (rbuf_size s)) (trans s)) as [[data | e] x];
      inversion Hread; subst.
    exact (@BytesIO_read_at_most k (BytesIO_new data) Hk).
  - inversion Hread; subst. exact (@BytesIO_read_at_most k (rbuf s) Hk).
Qed.

(** X2. Over a buffered transport, whatever transport it wraps, [readAll sz]
    returns exactly [sz] bytes when it returns (none for a negative
    [sz]): the wrapper never hands out more than it is asked for, even
    when the inner transport does. *)
Theorem readAll_buffered_exact (sz : Z) (s : t T) :
  match fst (TTransportBase.readAll sz s) with
  | Return out => len out = Z.max 0 sz
  | Raise _ => True
  end.
Proof.
  unfold TTransportBase.readAll.
  destruct (TTransportBase.readAll_loop sz [] 0 s) as [[out | e] s'] eqn:Hrun;
    cbn; [| exact I].
  apply (@readAll_loop_exact _ _ (Z.to_nat (sz - 0))
           buffered_reads_at_most_asked) in Hrun;
    [assumption | lia | reflexivity | lia].
Qed.

(** X3. No byte is lost or reordered by a [read] of [k <> 0] bytes: what
    it returns, followed by what the read buffer then holds unread, is
    either what the buffer held unread before, the inner transport being
    left alone, or, the buffer having been exhausted, what the one inner
    [read] returned. *)
Theorem read_conserves_bytes (k : Z) (s s' : t T) (got : bytes) :
  k <> 0 ->
  read k s = (Return got, s') ->
  (trans s' = trans s /\ got ++ unread (rbuf s') = unread (rbuf s)) \/
  (unread (rbuf s) = [] /\
   exists data,
     t_read (Z.max k (rbuf_size s)) (trans s) = (Return data, trans s') /\
     got ++ unread (rbuf s') = data).
Proof.
  intros Hk Hread. rewrite read_cases in Hread. cbv zeta in Hread.
  destruct (Z.eqb_spec (len (fst (BytesIO_read k (rbuf s)))) 0) as [Hz | Hnz].
  - right. apply len_zero in Hz.
    split; [exact (BytesIO_read_nothing _ Hk Hz) |].
    destruct (t_read (Z.max k (rbuf_size s)) (trans s)) as [[data | e] x];
      inversion Hread; subst.
    exists data. split; [reflexivity |].
    exact (BytesIO_read_splits k (BytesIO_new data)).
  - left. inversion Hread; subst. split; [reflexivity |].
    exact (BytesIO_read_splits k (rbuf s)).
Qed.

(** X4. A [read] of 0 bytes does not look at what the read buffer holds:
    it always makes the inner [read] of [max 0 blockSize] bytes, and when
    that returns it replaces the read buffer with the answer and returns
    no bytes, so that bytes which were unread before are gone. *)
Theorem read_zero_replaces_buffer (s : t T) :
  read 0 s =
  match t_read (Z.max 0 (rbuf_size s)) (trans s) with
  | (Return data, x) =>
      (Return [], mk x (wbuf s) (BytesIO_new data) (rbuf_size s))
  | (Raise e, x) =>
      (Raise e,
       mk x (wbuf s)
          {| getvalue := getvalue (rbuf s); tell := tell (rbuf s) + 0 |}
          (rbuf_size s))
  end
  /\ forall data x,
       t_read (Z.max 0 (rbuf_size s)) (trans s) = (Return data, x) ->
       unread (rbuf (snd (read 0 s))) = data.
Proof.
  assert (Hcases := read_cases 0 s). cbv zeta in Hcases.
  split.
  - rewrite Hcases. cbn.
    destruct (t_read (Z.max 0 (rbuf_size s)) (trans s)) as [[data | e] x];
      reflexivity.
  - intros data x Hread. rewrite Hcases. cbn. rewrite Hread. reflexivity.
Qed.

(** X5. [close] of the wrapper is the inner [close] and nothing more: it
    forwards none of what was written. The pending bytes stay in the
    write buffer, the read buffer is untouched, and the inner transport
    sees the [close] call only; a [flush] made after the [close] still
    forwards the pending bytes. *)
Theorem close_does_not_flush (bufs : list bytes) (s : t (Logged T)) :
  at_end (wbuf s) ->
  let s1 := snd (write_all bufs s) in
  let s2 := snd (close s1) in
  calls (trans s2) = calls (trans s) ++ [CallClose] /\
  getvalue (wbuf s2) = getvalue (wbuf s) ++ concat bufs /\
  rbuf s2 = rbuf s /\
  fst (close s1) = fst (t_close (target (trans s))) /\
  target (trans s2) = snd (t_close (target (trans s))) /\
  exists rw tail,
    calls (trans (snd (flush s2)))
    = calls (trans s)
      ++ CallClose :: CallWrite (getvalue (wbuf s) ++ concat bufs) rw :: tail.
Proof.
  intros Hend s1 s2.
  assert (Hclose :
    calls (trans s2) = calls (trans s) ++ [CallClose] /\
    getvalue (wbuf s2) = getvalue (wbuf s) ++ concat bufs /\
    rbuf s2 = rbuf s /\
    fst (close s1) = fst (t_close (target (trans s))) /\
    target (trans s2) = snd (t_close (target (trans s)))).
  { unfold s2, s1.
    rewrite write_all_accumulates by assumption. cbn.
    unfold close, inner. cbn. unfold Logged.logging.
    destruct (t_close (target (trans s))) as [r x]. cbn.
    repeat split. }
  destruct Hclose as [Hc [Hv [Hr [Hf Ht]]]].
  repeat split; try assumption.
  destruct (flush_calls s2) as [_ [rw [Hfl _]]].
  rewrite Hc, Hv, <- app_assoc in Hfl. cbn [app] in Hfl.
  eexists. eexists. exact Hfl.
Qed.

End BufferedMore.

Lemma firstn_app_split {A} (n : nat) (u rest : list A) :
  firstn n (u ++ rest) =
  firstn n u
  ++ firstn (n - length (firstn n u)) (skipn (length (firstn n u)) u ++ rest).
Proof.
  rewrite firstn_app.
  destruct (Nat.le_gt_cases n (length u)) as [Hle | Hgt].
  - rewrite (firstn_length_le u Hle).
    replace (n - length u)%nat with 0%nat by lia.
    replace (n - n)%nat with 0%nat by lia. reflexivity.
  - rewrite (firstn_all2 u) by lia.
    rewrite skipn_all. reflexivity.
Qed.

Lemma unread_after_read (n : nat) (b : BytesIO) :
  unread {| getvalue := getvalue b;
            tell := tell b + length (firstn n (unread b)) |}
  = skipn (length (firstn n (unread b))) (unread b).
Proof.
  unfold unread. cbn. rewrite Nat.add_comm, <- skipn_skipn. reflexivity.
Qed.

Section BufferedStream.
Context {T : Type} {TT : Transport T}.
Import TTransportBase TBufferedTransport.

(** A buffered [read] of [k >= 1] bytes from a stream that still has bytes,
    be they in the read buffer or to come from the source, returns a
    non-empty prefix of the stream and leaves the rest of it to be
    read. *)
Lemma read_takes_prefix (k : Z) (s : t T) (cs : list bytes) :
  1 <= k ->
  Forall (fun c => c <> []) cs ->
  serves cs (trans s) ->
  unread (rbuf s) ++ concat cs <> [] ->
  exists got s' cs' u,
    read k s = (Return got, s') /\
    got <> [] /\
    got = firstn (Z.to_nat k) u /\
    unread (rbuf s') = skipn (length got) u /\
    u ++ concat cs' = unread (rbuf s) ++ concat cs /\
    Forall (fun c => c <> []) cs' /\
    serves cs' (trans s').
Proof.
  intros Hk Hne Hserves Hstream.
  rewrite read_cases. cbv zeta.
  rewrite BytesIO_read_firstn by lia. cbn [fst snd].
  destruct (unread (rbuf s)) as [| a u] eqn:Hu.
  - (* exhausted: the next piece becomes the buffer *)
    rewrite firstn_nil. cbn [len length Z.of_nat Z.eqb].
    destruct cs as [| c cs']; [contradiction Hstream; reflexivity |].
    inversion Hne as [| c0 cs0 Hc Hcs']; subst.
    destruct (Hserves (Z.max k (rbuf_size s))) as [x1 [Hread Hs1]].
    rewrite Hread.
    rewrite BytesIO_read_firstn by lia. cbn [fst snd].
    exists (firstn (Z.to_nat k) c). eexists. exists cs', c.
    split; [reflexivity |].
    split.
    { destruct c as [| a c]; [contradiction Hc; reflexivity |].
      destruct (Z.to_nat k) eqn:Hn; [lia | discriminate]. }
    split; [reflexivity |].
    split; [exact (unread_after_read (Z.to_nat k) (BytesIO_new c)) |].
    repeat split; assumption.
  - (* served from the buffer *)
    assert (Hgot : firstn (Z.to_nat k) (a :: u) <> []).
    { destruct (Z.to_nat k) eqn:Hn; [lia | discriminate]. }
    assert (Hlen : (len (firstn (Z.to_nat k) (a :: u)) =? 0) = false).
    { apply Z.eqb_neq. intros Hz. apply len_zero in Hz. contradiction. }
    rewrite Hlen.
    exists (firstn (Z.to_nat k) (a :: u)). eexists. exists cs, (a :: u).
    split; [reflexivity |].
    split; [assumption |].
    split; [reflexivity |].
    split; [rewrite <- Hu; exact (unread_after_read (Z.to_nat k) (rbuf s)) |].
    repeat split; assumption.
Qed.

(** Reading through the wrapper consumes the stream in order. *)
Lemma readAll_loop_buffered_stream (m : nat) :
  forall sz buff have (s : t T) cs,
    (Z.to_nat (sz - have) <= m)%nat ->
    Forall (fun c => c <> []) cs ->
    serves cs (trans s) ->
    sz - have <= len (unread (rbuf s) ++ concat cs) ->
    fst (readAll_loop sz buff have s)
    = Return (buff ++ firstn (Z.to_nat (sz - have))
                             (unread (rbuf s) ++ concat cs)).
Proof.
  induction m as [| m IH]; intros sz buff have s cs Hm Hne Hserves Hlen;
    rewrite readAll_loop_step.
  - rewrite (proj2 (Z.ltb_ge _ _)) by lia.
    replace (Z.to_nat (sz - have)) with 0%nat by lia.
    cbn. rewrite app_nil_r. reflexivity.
  - destruct (Z.ltb_spec have sz) as [Hlt | Hge].
    + assert (Hstream : unread (rbuf s) ++ concat cs <> []).
      { intros Hnil. rewrite Hnil in Hlen. cbn in Hlen. lia. }
      destruct (@read_takes_prefix (sz - have) s cs ltac:(lia) Hne Hserves
                  Hstream)
        as [got [s' [cs' [u [Hread [Hgot [Hfirst [Hrest [Hsame [Hne' Hs']]]]]]]]]].
      change (t_read (sz - have) s) with (read (sz - have) s).
      rewrite Hread.
      assert (Hz : (len got =? 0) = false).
      { apply Z.eqb_neq. intros Hz. apply len_zero in Hz. contradiction. }
      rewrite Hz.
      assert (Hgl : 0 < len got).
      { apply Z.eqb_neq in Hz. pose proof (len_nonneg got). lia. }
      assert (Hk : len got <= sz - have).
      { rewrite Hfirst. unfold len. rewrite length_firstn. lia. }
      rewrite (IH sz (buff ++ got) (have + len got) s' cs'); try assumption.
      * rewrite <- Hsame, Hrest, <- app_assoc. f_equal.
        rewrite (firstn_app_split (Z.to_nat (sz - have)) u (concat cs')).
        rewrite <- Hfirst.
        replace (Z.to_nat (sz - (have + len got)))
          with (Z.to_nat (sz - have) - length got)%nat by (unfold len; lia).
        reflexivity.
      * lia.
      * rewrite Hrest.
        assert (Hall : len (u ++ concat cs')
                       = len got + len (skipn (length got) u ++ concat cs')).
        { rewrite <- (firstn_skipn_length (Z.to_nat (sz - have)) u) at 1.
          rewrite <- Hfirst. rewrite <- app_assoc. apply len_app. }
        rewrite <- Hsame in Hlen. lia.
    + replace (Z.to_nat (sz - have)) with 0%nat by lia.
      cbn. rewrite app_nil_r. reflexivity.
Qed.

(** X6. Buffering is transparent to exact-count reads. When the inner
    source yields the non-empty pieces [cs] in sequence, [readAll n]
    through the wrapper, for [n] no more than what the read buffer holds
    unread plus the pieces, returns the first [n] bytes of the unread
    bytes followed by the pieces, whatever the block size. *)
Theorem readAll_through_buffer (n : Z) (s : t T) (cs : list bytes) :
  Forall (fun c => c <> []) cs ->
  serves cs (trans s) ->
  n <= len (unread (rbuf s) ++ concat cs) ->
  fst (readAll n s)
  = Return (firstn (Z.to_nat n) (unread (rbuf s) ++ concat cs)).
Proof.
  intros Hne Hserves Hlen. unfold readAll.
  rewrite (@readAll_loop_buffered_stream (Z.to_nat (n - 0)) n [] 0 s cs);
    try assumption; try lia.
  rewrite Z.sub_0_r. reflexivity.
Qed.

End BufferedStream.

(** ** Stacked transports *)

Section Stacked.
Context {T : Type} {TT : Transport T}.
Import TBufferedTransport.

(** [flush] in terms of the two inner calls, for any inner transport. *)
Lemma flush_cases {U : Type} {TU : Transport U} (s : t U) :
  flush s =
  match t_write (getvalue (wbuf s)) (trans s) with
  | (Return _, x) =>
      let (r, y) := t_flush x in
      (r, mk y (BytesIO_new []) (rbuf s) (rbuf_size s))
  | (Raise e, x) => (Raise e, mk x (BytesIO_new []) (rbuf s) (rbuf_size s))
  end.
Proof.
  unfold flush, bind, get, set_wbuf, inner, set_trans. cbn.
  destruct (t_write (getvalue (wbuf s)) (trans s)) as [[[] | e] x]; cbn;
    [| reflexivity].
  destruct (t_flush x); reflexivity.
Qed.

(** X7. Wrappers compose. On a buffered transport wrapping a buffered
    transport, both write buffers standing at their end, [flush] after any
    number of [write] calls empties both write buffers and makes exactly
    one [write] on the innermost transport, carrying what was pending in
    the inner wrapper, then what was pending in the outer one, then the
    written bytes in write order, followed by its one [flush] when that
    [write] returns. *)
Theorem flush_through_two_buffers (bufs : list bytes) (s : t (t (Logged T))) :
  at_end (wbuf s) ->
  at_end (wbuf (trans s)) ->
  let s1 := snd (write_all bufs s) in
  let res := flush s1 in
  wbuf (snd res) = BytesIO_new [] /\
  wbuf (trans (snd res)) = BytesIO_new [] /\
  exists rw,
    calls (trans (trans (snd res))) =
    calls (trans (trans s))
    ++ CallWrite (getvalue (wbuf (trans s)) ++ getvalue (wbuf s) ++ concat bufs)
                 rw
       :: match rw with
          | Return _ => [CallFlush (fst res)]
          | Raise _ => []
          end.
Proof.
  intros Hout Hin s1 res. unfold res, s1.
  rewrite write_all_accumulates by assumption. cbn [snd].
  set (out := getvalue (wbuf s) ++ concat bufs).
  set (mid := mk (trans (trans s))
                 {| getvalue := getvalue (wbuf (trans s)) ++ out;
                    tell := length (getvalue (wbuf (trans s)) ++ out) |}
                 (rbuf (trans s)) (rbuf_size (trans s))).
  assert (Hf : flush (mk (trans s) {| getvalue := out; tell := length out |}
                         (rbuf s) (rbuf_size s))
               = let (r, y) := flush mid in
                 (r, mk y (BytesIO_new []) (rbuf s) (rbuf_size s))).
  { rewrite flush_cases.
    change (t_write ?b ?x) with (write b x).
    unfold write. cbv beta iota. cbn [wbuf getvalue trans rbuf rbuf_size].
    rewrite (BytesIO_write_at_end _ Hin). reflexivity. }
  rewrite Hf.
  destruct (flush_calls mid) as [Hw [rw [Hc _]]].
  destruct (flush mid) as [r y]. cbn [fst snd trans wbuf] in *.
  split; [reflexivity |]. split; [assumption |].
  exists rw. exact Hc.
Qed.

End Stacked.

Section BufferedSocket.
Context {W H : Type} {E : SocketEnv W H}.
Import TBufferedTransport.

(** X8. Bytes written before a [flush] reach the socket in write order. On
    a buffered transport over a socket transport with a live handle, the
    socket accepting at most what it is offered, [flush] after any number
    of [write] calls makes [send] calls only; when it returns, the
    accepted prefixes concatenate to the pending bytes followed by the
    written ones; when it raises, the last [send] accepted nothing or
    raised. Either way the write buffer is left empty. *)
Theorem flush_reaches_socket
    (h : H) (bufs : list bytes) (s : t (TSocket.st (Traced W H) H)) :
  accepts_at_most_offered (E := E) ->
  at_end (wbuf s) ->
  TSocket.handle (TSocket.self (trans s)) = Some h ->
  let res := flush (snd (write_all bufs s)) in
  wbuf (snd res) = BytesIO_new [] /\
  exists log,
    trace (TSocket.os (trans (snd res)))
    = trace (TSocket.os (trans s)) ++ send_calls h log /\
    match fst res with
    | Return _ =>
        all_accepting log /\
        transmitted log = getvalue (wbuf s) ++ concat bufs
    | Raise e =>
        exists front payload rl,
          log = front ++ [(payload, rl)] /\ all_accepting front /\
          (rl = Return 0%nat /\ e = eof_sent \/ rl = Raise e)
    end.
Proof.
  intros Hwb Hend Hh res. unfold res.
  rewrite write_all_accumulates by assumption. cbn [snd].
  rewrite flush_cases. cbn [wbuf getvalue trans rbuf rbuf_size].
  set (out := getvalue (wbuf s) ++ concat bufs).
  change (t_write out (trans s)) with (TSocket.write out (trans s)).
  unfold TSocket.write. rewrite Hh.
  destruct (TSocket.write_loop h (len out) 0 out (trans s)) as [r x] eqn:Hrun.
  apply (@write_loop_record W H E (Z.to_nat (len out - 0))) in Hrun;
    [| assumption | lia | lia].
  destruct Hrun as [_ [log [Htr Hr]]].
  destruct r as [[] | e]; cbn.
  - split; [reflexivity |]. exists log. split; [exact Htr |].
    destruct Hr as [Hacc [Htx _]]. split; assumption.
  - split; [reflexivity |]. exists log. split; [exact Htr |]. exact Hr.
Qed.

End BufferedSocket.

(** ** What [readAll] asks for and what it raises *)

Section ReadAllRequests.
Context {T : Type} {TT : Transport T}.
Import TTransportBase.

Lemma readAll_loop_requests (m : nat) :
  forall sz buff have (l l' : Logged T) r,
    (Z.to_nat (sz - have) <= m)%nat ->
    readAll_loop sz buff have l = (r, l') ->
    exists news,
      calls l' = calls l ++ news /\
      asks_outstanding (sz - have) buff news r.
Proof.
  induction m as [| m IH]; intros sz buff have l l' r Hm Hrun;
    rewrite readAll_loop_step in Hrun.
  - rewrite (proj2 (Z.ltb_ge _ _)) in Hrun by lia.
    inversion Hrun; subst. exists []. rewrite app_nil_r.
    split; [reflexivity |]. cbn. split; [lia | reflexivity].
  - destruct (Z.ltb_spec have sz) as [Hlt | Hge].
    + cbn in Hrun. unfold Logged.logging in Hrun.
      destruct (t_read (sz - have) (target l)) as [[chunk | e] x'].
      * destruct (Z.eqb_spec (len chunk) 0) as [Hz | Hnz].
        -- inversion Hrun; subst. cbn.
           exists [CallRead (sz - have) (Return chunk)].
           apply len_zero in Hz. subst chunk.
           split; [reflexivity |]. cbn.
           repeat split. lia.
        -- pose proof (len_nonneg chunk).
           apply IH in Hrun; [| lia].
           destruct Hrun as [news [Hc Hask]]. cbn in Hc.
           exists (CallRead (sz - have) (Return chunk) :: news).
           rewrite Hc, <- app_assoc.
           split; [reflexivity |].
           cbn [asks_outstanding].
           split; [reflexivity |]. split; [lia |].
           destruct chunk as [| b chunk]; [contradiction Hnz; reflexivity |].
           replace (sz - have - len (b :: chunk))
             with (sz - (have + len (b :: chunk))) by lia.
           exact Hask.
      * inversion Hrun; subst. cbn.
        exists [CallRead (sz - have) (Raise e)].
        split; [reflexivity |]. cbn. repeat split. lia.
    + inversion Hrun; subst. exists []. rewrite app_nil_r.
      split; [reflexivity |]. cbn. split; [lia | reflexivity].
Qed.

(** X9. What [readAll sz] asks of [read], and what it makes of the
    answers. It makes [read] calls only, and none when [sz <= 0]: the
    result is then the empty byte string. Each call asks for exactly what
    is still outstanding of [sz], which is more than nothing. A call that
    raises is the last, and its exception is raised unchanged; a call
    that returns no bytes is the last, and [EOFError] is raised; after a
    call that returns bytes, [readAll] goes on while bytes are
    outstanding and then returns everything the calls returned, in
    order. *)
Theorem readAll_asks_outstanding (sz : Z) (l : Logged T) :
  let res := readAll sz l in
  exists news,
    calls (snd res) = calls l ++ news /\
    asks_outstanding sz [] news (fst res).
Proof.
  intros res. unfold res, readAll.
  destruct (readAll_loop sz [] 0 l) as [r l'] eqn:Hrun.
  apply (@readAll_loop_requests (Z.to_nat (sz - 0))) in Hrun; [| lia].
  destruct Hrun as [news [Hc Hask]].
  exists news. rewrite Z.sub_0_r in Hask. cbn. split; assumption.
Qed.

(** Over a transport whose [read] neither returns an empty result nor
    raises [EOFError], the loop of [readAll] does not raise [EOFError]. *)
Lemma readAll_loop_no_EOFError (m : nat) :
  (forall k (x x' : T), t_read k x <> (Return [], x')) ->
  (forall k (x x' : T), t_read k x <> (Raise EOFError, x')) ->
  forall sz buff have (x : T),
    (Z.to_nat (sz - have) <= m)%nat ->
    fst (readAll_loop sz buff have x) <> Raise EOFError.
Proof.
  intros Hne Hnr.
  induction m as [| m IH]; intros sz buff have x Hm;
    rewrite readAll_loop_step.
  - rewrite (proj2 (Z.ltb_ge _ _)) by lia. discriminate.
  - destruct (Z.ltb_spec have sz) as [Hlt | Hge]; [| discriminate].
    destruct (t_read (sz - have) x) as [[chunk | e] x'] eqn:Hread.
    + destruct (Z.eqb_spec (len chunk) 0) as [Hz | Hnz].
      * apply len_zero in Hz. subst chunk. elim (Hne _ _ _ Hread).
      * pose proof (len_nonneg chunk). apply IH. lia.
    + cbn. intros He. inversion He; subst. elim (Hnr _ _ _ Hread).
Qed.

End ReadAllRequests.

(** ** More on the socket transport *)

Section SocketMore.
Context {W H : Type} {E : SocketEnv W H}.
Import TSocket.

(** A [read] on a live handle never returns an empty result and, unless
    [recv] does, never raises [EOFError]. *)
Lemma socket_read_outcomes (sz : Z) (s s' : st W H) :
  read sz s <> (Return [], s') /\
  (recv_never_raises_EOFError (E := E) -> read sz s <> (Raise EOFError, s')).
Proof.
  unfold read, bind, get, try_socket_error, sys. cbn.
  destruct (handle (self s)) as [h |] eqn:Hh; [| split; discriminate].
  destruct (recv h sz (os s)) as [[buff | e] w'] eqn:Hrecv.
  - destruct (Z.eqb_spec (len buff) 0) as [Hz | Hnz]; cbn.
    + split; discriminate.
    + split; [| discriminate].
      intros Heq. inversion Heq; subst. apply Hnz. reflexivity.
  - destruct e as [| k m | args | what | | name]; try (split; discriminate).
    + split; [discriminate |]. intros Hnever. elim (Hnever _ _ _ _ Hrecv).
    + destruct (is_reset args) as [[|] | x] eqn:Hreset.
      * destruct peer_shutdown_platform; [| split; discriminate].
        unfold close, bind, get, sys_do, set_handle, ret. cbn.
        rewrite Hh. cbn. split; discriminate.
      * split; discriminate.
      * split; [discriminate |].
        destruct args as [| [code | txt] rest]; cbn in Hreset;
          inversion Hreset; subst. discriminate.
Qed.

(** X10. Over a socket transport whose [recv] does not itself raise
    [EOFError], [readAll] never raises [EOFError]: the end of the stream
    reaches the caller as the [END_OF_FILE] transport exception that
    [read] raises. In particular, when [recv] returns no bytes on the
    first call of a [readAll] of at least one byte, [readAll] raises that
    exception. *)
Theorem readAll_on_socket_raises_END_OF_FILE (sz : Z) (s : st W H) :
  recv_never_raises_EOFError (E := E) ->
  fst (TTransportBase.readAll sz s) <> Raise EOFError /\
  (forall h w',
     handle (self s) = Some h ->
     0 < sz ->
     recv h sz (os s) = (Return [], w') ->
     TTransportBase.readAll sz s = (Raise eof_read, St (self s) w')).
Proof.
  intros Hnever. split.
  - unfold TTransportBase.readAll.
    apply (@readAll_loop_no_EOFError _ _ (Z.to_nat (sz - 0))); [| | lia].
    + intros k x x'. exact (proj1 (socket_read_outcomes k x x')).
    + intros k x x'. exact (proj2 (socket_read_outcomes k x x') Hnever).
  - intros h w' Hh Hsz Hrecv.
    unfold TTransportBase.readAll. rewrite readAll_loop_step.
    rewrite (proj2 (Z.ltb_lt _ _)) by lia.
    rewrite Z.sub_0_r.
    change (t_read sz s) with (read sz s).
    unfold read, bind, get, try_socket_error, sys. cbn.
    rewrite Hh, Hrecv. reflexivity.
Qed.

(** X11. On a live handle, [read] is [recv] except for the empty result
    and the normalised reset: bytes that [recv] returns are returned as
    they are; a [socket.error] whose first argument is not the reset
    code, or any [socket.error] with a first argument on a platform
    other than darwin and freebsd, is raised unchanged; and neither
    closes the transport, whose handle stays. *)
Theorem read_passes_recv_through (sz : Z) (s : st W H) (h : H) :
  handle (self s) = Some h ->
  (forall b w',
     recv h sz (os s) = (Return b, w') -> b <> [] ->
     read sz s = (Return b, St (self s) w')) /\
  (forall args w',
     recv h sz (os s) = (Raise (socket_error args), w') ->
     is_reset args = Return false \/
     (args <> [] /\ peer_shutdown_platform = false) ->
     read sz s = (Raise (socket_error args), St (self s) w')) /\
  (forall w',
     recv h sz (os s) = (Raise (socket_error []), w') ->
     read sz s = (Raise IndexError, St (self s) w')).
Proof.
  intros Hh. repeat split.
  - intros b w' Hrecv Hb.
    unfold read, bind, get, try_socket_error, sys. cbn.
    rewrite Hh, Hrecv.
    destruct (Z.eqb_spec (len b) 0) as [Hz | Hnz]; [| reflexivity].
    apply len_zero in Hz. contradiction.
  - intros args w' Hrecv Hcase.
    unfold read, bind, get, try_socket_error, sys. cbn.
    rewrite Hh, Hrecv.
    destruct Hcase as [Hreset | [Hargs Hplat]].
    + rewrite Hreset. reflexivity.
    + destruct args as [| [code | txt] rest]; [contradiction | |];
        cbn; [| reflexivity].
      destruct (code =? ECONNRESET); [rewrite Hplat |]; reflexivity.
  - intros w' Hrecv.
    unfold read, bind, get, try_socket_error, sys. cbn.
    rewrite Hh, Hrecv. reflexivity.
Qed.

End SocketMore.

Section CloseSpec.
Context {W H : Type} {E : SocketEnv W H}.
Import TSocket.

(** X12. [close] releases the handle once and is idempotent. It returns,
    makes the one [close] call on the socket it held (none when it held
    none) and leaves no handle; after it [isOpen] answers [False],
    [write] raises the [NOT_OPEN] transport exception, and a second
    [close] changes nothing. *)
Theorem close_releases_once (s : st (Traced W H) H) :
  let s1 := snd (close s) in
  fst (close s) = Return tt /\
  handle (self s1) = None /\
  same_config (self s1) (self s) /\
  trace (os s1)
  = trace (os s) ++ match handle (self s) with
                    | Some h => [SysClose h]
                    | None => []
                    end /\
  close s1 = (Return tt, s1) /\
  fst (isOpen s1) = Return false /\
  forall buff,
    write buff s1
    = (Raise (TTransportException NOT_OPEN (Some "Transport not open"%string)),
       s1).
Proof.
  intros s1. unfold s1, close, bind, get, sys_do, set_handle, ret. cbn.
  destruct s as [[host port [h |] path tm] w]; cbn.
  - repeat split.
  - rewrite app_nil_r. destruct w. repeat split.
Qed.

End CloseSpec.

(** ** More on opening *)

Lemma div_thousand_raises (v : Z) (e : exn) :
  div_thousand v = Raise e -> e = OtherError "OverflowError".
Proof.
  unfold div_thousand, float_of_int.
  destruct (SpecFloat.binary_normalize 53 1024 v 0 false);
    intros Heq; inversion Heq; reflexivity.
Qed.

Section OpenMore.
Context {W H : Type} {E : SocketEnv W H}.
Import TSocket.

Lemma attempts_never_close (tm : option timeout) (atts : list (attempt H))
    (h : H) :
  ~ In (SysClose h) (flat_map (attempt_calls tm) atts).
Proof.
  induction atts as [| a atts IH]; cbn; [tauto |].
  intros Hin. apply in_app_or in Hin. destruct Hin as [Hin | Hin];
    [| exact (IH Hin)].
  destruct a as [c e | c h' e | c h' r]; cbn in Hin;
    repeat (destruct Hin as [Hin | Hin]; [discriminate |]); exact Hin.
Qed.

(** X13. What [open] does to the system, over the candidates the resolver
    returned: a sequence of attempts on the candidates in order, an
    attempt being the creation of a socket of the candidate's family and
    type, then the transport's timeout set on it, then the [connect] to
    the candidate's address, and ending at the first of these calls that
    raises. Every attempt but the last got to its [connect], which ended
    with a [socket.error]. [open] makes no [close] call. It changes
    nothing of the transport but the handle, and the handle it leaves is
    the socket that was made last, connected or not, or the handle held
    before if no socket was made. *)
Theorem open_is_a_sequence_of_attempts
    (s s1 : st (Traced W H) H) (res0 : list addrinfo) :
  _resolveAddr s = (Return res0, s1) ->
  let res := open s in
  same_config (self (snd res)) (self s) /\
  exists atts,
    trace (os (snd res))
    = trace (os s1) ++ flat_map (attempt_calls (_timeout (self s))) atts /\
    map attempt_candidate atts = firstn (length atts) res0 /\
    (res0 <> [] -> atts <> []) /\
    Forall attempt_failed (removelast atts) /\
    handle (self (snd res)) = handle_after (handle (self s)) atts /\
    (forall h, ~ In (SysClose h)
                    (flat_map (attempt_calls (_timeout (self s))) atts)).
Proof.
  intros Hres res. unfold res.
  destruct (open_attempts s Hres)
    as [Hcfg [atts [Htr [Hmap [Hne [Hfail [_ [Hh _]]]]]]]].
  split; [exact Hcfg |].
  exists atts. repeat split; try assumption.
  intros h. apply attempts_never_close.
Qed.

(** What follows from the timeout that [setTimeout] keeps and the one
    [settimeout] call it makes on a live socket. *)
Lemma setTimeout_keeps (tm : option timeout) (s : st (Traced W H) H)
    (res : outcome unit * st (Traced W H) H) :
  res = (match handle (self s) with
         | Some h =>
             let (r, w) := settimeout h tm (under (os s)) in
             (r, St (mk (host (self s)) (port (self s)) (handle (self s))
                        (_unix_socket (self s)) tm)
                    {| under := w;
                       trace := trace (os s) ++ [SysSetTimeout h tm r] |})
         | None =>
             (Return tt,
              St (mk (host (self s)) (port (self s)) (handle (self s))
                     (_unix_socket (self s)) tm)
                 {| under := under (os s); trace := trace (os s) |})
         end) ->
  _timeout (self (snd res)) = tm /\
  handle (self (snd res)) = handle (self s) /\
  match handle (self s) with
  | Some h =>
      exists r,
        trace (os (snd res)) = trace (os s) ++ [SysSetTimeout h tm r] /\
        fst res = r
  | None => trace (os (snd res)) = trace (os s) /\ fst res = Return tt
  end /\
  forall res0 s1,
    _resolveAddr (snd res) = (Return res0, s1) ->
    exists atts,
      trace (os (snd (open (snd res))))
      = trace (os s1) ++ flat_map (attempt_calls tm) atts /\
      map attempt_candidate atts = firstn (length atts) res0.
Proof.
  intros Hres.
  assert (Hopen : forall x : st (Traced W H) H,
    _timeout (self x) = tm ->
    forall res0 s1,
      _resolveAddr x = (Return res0, s1) ->
      exists atts,
        trace (os (snd (open x)))
        = trace (os s1) ++ flat_map (attempt_calls tm) atts /\
        map attempt_candidate atts = firstn (length atts) res0).
  { intros x Hx res0 s1 Hr.
    destruct (open_attempts x Hr) as [_ [atts [Htr [Hmap _]]]].
    rewrite Hx in Htr. exists atts. split; assumption. }
  destruct (handle (self s)) as [h |] eqn:Hh.
  - destruct (settimeout h tm (under (os s))) as [r w]. subst res.
    cbn [fst snd self os _timeout handle trace].
    split; [reflexivity |]. split; [reflexivity |].
    split; [exists r; split; reflexivity |].
    apply Hopen. reflexivity.
  - subst res. cbn [fst snd self os _timeout handle trace].
    split; [reflexivity |]. split; [reflexivity |].
    split; [split; reflexivity |].
    apply Hopen. reflexivity.
Qed.

(** X14. [setTimeout ms] with [ms] an [int] or [None]. The timeout it
    keeps is the float [ms / 1000.0], or [None]; if [ms] is too large for
    a float the division raises [OverflowError] and nothing is changed.
    It never changes the handle. When a handle is present it then sets
    the kept timeout on the live socket with one [settimeout] call, whose
    outcome is the outcome of [setTimeout]: if that call raises, as it
    does for a negative timeout, the timeout has been kept all the same.
    Without a handle it makes no system call and returns. Every socket
    that a later [open] creates is given the kept timeout. *)
Theorem setTimeout_configures_sockets (ms : option Z) (s : st (Traced W H) H) :
  let res := setTimeout ms s in
  let s0 := snd res in
  let kept (tm : option timeout) :=
    _timeout (self s0) = tm /\
    handle (self s0) = handle (self s) /\
    match handle (self s) with
    | Some h =>
        exists r,
          trace (os s0) = trace (os s) ++ [SysSetTimeout h tm r] /\
          fst res = r
    | None => trace (os s0) = trace (os s) /\ fst res = Return tt
    end /\
    forall res0 s1,
      _resolveAddr s0 = (Return res0, s1) ->
      exists atts,
        trace (os (snd (open s0)))
        = trace (os s1) ++ flat_map (attempt_calls tm) atts /\
        map attempt_candidate atts = firstn (length atts) res0 in
  match ms with
  | None => kept None
  | Some v =>
      match div_thousand v with
      | Return seconds => kept (Some seconds)
      | Raise e => res = (Raise e, s) /\ e = OtherError "OverflowError"
      end
  end /\
  div_thousand 2500
  = Return (SpecFloat.S754_finite false 5629499534213120 (-51)) /\
  div_thousand (2 ^ 1024) = Raise (OtherError "OverflowError").
Proof.
  intros res s0 kept.
  split; [| split; vm_compute; reflexivity].
  destruct ms as [v |].
  - destruct (div_thousand v) as [seconds | e] eqn:Hdiv.
    + unfold kept, s0. apply setTimeout_keeps.
      unfold res, setTimeout. rewrite Hdiv.
      unfold bind, get, set_timeout, sys, ret.
      destruct s as [[ho po [h |] us tm0] [w tr]]; cbn; [| reflexivity].
      unfold Traced.tracing. cbn.
      destruct (settimeout h (Some seconds) w) as [r w']. reflexivity.
    + split; [| exact (div_thousand_raises _ Hdiv)].
      unfold res, setTimeout. rewrite Hdiv. reflexivity.
  - unfold kept, s0. apply setTimeout_keeps.
    unfold res, setTimeout.
    unfold bind, get, set_timeout, sys, ret.
    destruct s as [[ho po [h |] us tm0] [w tr]]; cbn; [| reflexivity].
    unfold Traced.tracing. cbn.
    destruct (settimeout h None w) as [r w']. reflexivity.
Qed.

End OpenMore.

Section OpenEdge.
Context {W H : Type} {E : SocketEnv W H}.
Import TSocket.

(** X15. [open] when name resolution gives nothing to try, no Unix path
    being set. If the resolver raises a [socket.error], [open] raises the
    [NOT_OPEN] transport exception naming the host and port, having
    created no socket and left the handle as it was. If the resolver
    returns no candidate, [open] returns without error and without
    opening anything. *)
Theorem open_without_candidates (s : st W H) :
  _unix_socket (self s) = None ->
  let lookup :=
    getaddrinfo (host (self s)) (port (self s)) AF_UNSPEC SOCK_STREAM 0
                (Z.lor AI_PASSIVE AI_ADDRCONFIG) (os s) in
  (forall args w',
     lookup = (Raise (socket_error args), w') ->
     open s
     = (Raise (TTransportException NOT_OPEN
                 (Some ("Could not connect to " ++ host (self s) ++ ":"
                          ++ format_d (port (self s)))%string)),
        St (self s) w')) /\
  (forall w', lookup = (Return [], w') -> open s = (Return tt, St (self s) w')).
Proof.
  intros Hu lookup. split.
  - intros args w' Hl. unfold lookup in Hl.
    unfold open, try_socket_error, _resolveAddr.
    unfold bind, get, sys, raise.
    cbv beta iota. rewrite Hu. cbv beta iota. rewrite Hl. cbn.
    unfold not_open_message. rewrite Hu. reflexivity.
  - intros w' Hl. unfold lookup in Hl.
    unfold open, try_socket_error, _resolveAddr.
    unfold bind, get, sys, raise.
    cbv beta iota. rewrite Hu. cbv beta iota. rewrite Hl. reflexivity.
Qed.

End OpenEdge.

(** ** End of stream through the stack *)

Section EndOfStream.
Context {T : Type} {TT : Transport T}.
Import TTransportBase.

(** [readAll] asks for at least one byte at a time, so it is enough that
    such reads neither come back empty nor raise [EOFError]. *)
Lemma readAll_loop_no_EOFError_positive (m : nat) :
  (forall k (x x' : T), 0 < k -> t_read k x <> (Return [], x')) ->
  (forall k (x x' : T), 0 < k -> t_read k x <> (Raise EOFError, x')) ->
  forall sz buff have (x : T),
    (Z.to_nat (sz - have) <= m)%nat ->
    fst (readAll_loop sz buff have x) <> Raise EOFError.
Proof.
  intros Hne Hnr.
  induction m as [| m IH]; intros sz buff have x Hm;
    rewrite readAll_loop_step.
  - rewrite (proj2 (Z.ltb_ge _ _)) by lia. discriminate.
  - destruct (Z.ltb_spec have sz) as [Hlt | Hge]; [| discriminate].
    destruct (t_read (sz - have) x) as [[chunk | e] x'] eqn:Hread.
    + destruct (Z.eqb_spec (len chunk) 0) as [Hz | Hnz].
      * apply len_zero in Hz. subst chunk.
        elim (Hne (sz - have) x x' ltac:(lia) Hread).
      * pose proof (len_nonneg chunk). apply IH. lia.
    + cbn. intros He. inversion He; subst.
      elim (Hnr (sz - have) x x' ltac:(lia) Hread).
Qed.

(** A buffered [read] of at least one byte inherits both properties from
    the transport it wraps. *)
Lemma buffered_read_outcomes (k : Z) (s s' : TBufferedTransport.t T) :
  0 < k ->
  (forall j (x x' : T), t_read j x <> (Return [], x')) ->
  (forall j (x x' : T), t_read j x <> (Raise EOFError, x')) ->
  TBufferedTransport.read k s <> (Return [], s') /\
  TBufferedTransport.read k s <> (Raise EOFError, s').
Proof.
  intros Hk Hne Hnr. rewrite read_cases. cbv zeta.
  destruct (Z.eqb_spec (len (fst (BytesIO_read k (TBufferedTransport.rbuf s)))) 0)
    as [Hz | Hnz].
  - destruct (t_read (Z.max k (TBufferedTransport.rbuf_size s))
                     (TBufferedTransport.trans s))
      as [[data | e] x] eqn:Hread.
    + split; [| discriminate].
      intros Heq. apply (f_equal fst) in Heq. cbn [fst] in Heq.
      injection Heq as Hgot.
      change (fst (BytesIO_read k (BytesIO_new data)) = []) in Hgot.
      rewrite BytesIO_read_firstn in Hgot by lia. cbn in Hgot.
      destruct data as [| a data]; [elim (Hne _ _ _ Hread) |].
      destruct (Z.to_nat k) eqn:Hn; [lia | discriminate].
    + split; [discriminate |].
      intros Heq. inversion Heq; subst. elim (Hnr _ _ _ Hread).
  - split; [| discriminate].
    intros Heq. apply (f_equal fst) in Heq. cbn [fst] in Heq.
    injection Heq as Hgot.
    change (fst (BytesIO_read k (TBufferedTransport.rbuf s)) = []) in Hgot.
    rewrite Hgot in Hnz. apply Hnz. reflexivity.
Qed.

End EndOfStream.

Section EndOfStreamSocket.
Context {W H : Type} {E : SocketEnv W H}.

(** X16. Through a buffered transport over a socket transport whose
    [recv] does not itself raise [EOFError], [readAll] never raises
    [EOFError] either: the wrapper adds no end-of-stream signal of its
    own, and a closed peer is reported by the [END_OF_FILE] transport
    exception of the socket transport. *)
Theorem readAll_through_buffer_on_socket
    (sz : Z) (s : TBufferedTransport.t (TSocket.st W H)) :
  recv_never_raises_EOFError (E := E) ->
  fst (TTransportBase.readAll sz s) <> Raise EOFError /\
  (forall h w',
     TSocket.handle (TSocket.self (TBufferedTransport.trans s)) = Some h ->
     0 < sz ->
     unread (TBufferedTransport.rbuf s) = [] ->
     recv h (Z.max sz (TBufferedTransport.rbuf_size s))
          (TSocket.os (TBufferedTransport.trans s))
     = (Return [], w') ->
     fst (TTransportBase.readAll sz s) = Raise eof_read).
Proof.
  intros Hnever. split.
  - unfold TTransportBase.readAll.
    apply (@readAll_loop_no_EOFError_positive _ _ (Z.to_nat (sz - 0)));
      [| | lia].
    + intros k x x' Hk.
      apply (buffered_read_outcomes x x' Hk).
      * intros j y y'. exact (proj1 (socket_read_outcomes j y y')).
      * intros j y y'. exact (proj2 (socket_read_outcomes j y y') Hnever).
    + intros k x x' Hk.
      apply (buffered_read_outcomes x x' Hk).
      * intros j y y'. exact (proj1 (socket_read_outcomes j y y')).
      * intros j y y'. exact (proj2 (socket_read_outcomes j y y') Hnever).
  - intros h w' Hh Hsz Hu Hrecv.
    unfold TTransportBase.readAll. rewrite readAll_loop_step.
    rewrite (proj2 (Z.ltb_lt _ _)) by lia.
    rewrite Z.sub_0_r.
    change (t_read sz s) with (TBufferedTransport.read sz s).
    rewrite read_cases. cbv zeta.
    rewrite (BytesIO_read_exhausted sz _ Hu). cbn [fst snd len length].
    change (t_read ?k (TBufferedTransport.trans s))
      with (TSocket.read k (TBufferedTransport.trans s)).
    unfold TSocket.read, bind, get, try_socket_error, TSocket.sys. cbn.
    rewrite Hh, Hrecv. reflexivity.
Qed.

End EndOfStreamSocket.

(** ** The further properties at sample inputs *)

Lemma pieces_serves (cs : list bytes) : serves cs (Script.pieces cs).
Proof.
  induction cs as [| c cs IH]; [exact I |].
  intros k. exists (Script.pieces cs). split; [reflexivity | exact IH].
Defined.

Lemma readAll_length_witness :
  TTransportBase.readAll (-3) (Script.pieces Sample.five_in_three)
  = (Return [], Script.pieces Sample.five_in_three).
Proof.
  apply (proj1 (readAll_length (-3) (Script.pieces Sample.five_in_three))).
  lia.
Defined.

Lemma read_conserves_bytes_witness :
  let s' := TBufferedTransport.mk (Logged.fresh (Script.pieces [Sample.eight]))
              (BytesIO_new []) {| getvalue := Sample.hello; tell := 4 |} 4096 in
  (TBufferedTransport.trans s' = TBufferedTransport.trans Sample.half_read /\
   [Byte.x6c; Byte.x6c] ++ unread (TBufferedTransport.rbuf s')
   = unread (TBufferedTransport.rbuf Sample.half_read)) \/
  (unread (TBufferedTransport.rbuf Sample.half_read) = [] /\
   exists data,
     t_read (Z.max 2 (TBufferedTransport.rbuf_size Sample.half_read))
            (TBufferedTransport.trans Sample.half_read)
     = (Return data, TBufferedTransport.trans s') /\
     [Byte.x6c; Byte.x6c] ++ unread (TBufferedTransport.rbuf s') = data).
Proof.
  intros s'.
  apply (@read_conserves_bytes _ _ 2 Sample.half_read s' [Byte.x6c; Byte.x6c]);
    [lia | reflexivity].
Defined.

Lemma close_does_not_flush_witness :
  at_end (TBufferedTransport.wbuf Sample.trickling) /\
  calls (TBufferedTransport.trans
           (snd (TBufferedTransport.close
                   (snd (write_all [Sample.hello] Sample.trickling)))))
  = calls (TBufferedTransport.trans Sample.trickling) ++ [CallClose].
Proof.
  split; [reflexivity |].
  exact (proj1 (close_does_not_flush [Sample.hello] Sample.trickling eq_refl)).
Defined.

Lemma readAll_through_buffer_witness :
  fst (TTransportBase.readAll 4 Fixture.chunked)
  = Return [Byte.x68; Byte.x65; Byte.x6c; Byte.x6c].
Proof.
  apply (@readAll_through_buffer _ _ 4 Fixture.chunked Sample.five_in_three).
  - repeat constructor; discriminate.
  - exact (pieces_serves Sample.five_in_three).
  - vm_compute. discriminate.
Defined.

Lemma flush_through_two_buffers_witness :
  at_end (TBufferedTransport.wbuf Fixture.nested) /\
  at_end (TBufferedTransport.wbuf (TBufferedTransport.trans Fixture.nested)) /\
  TBufferedTransport.wbuf
    (TBufferedTransport.trans
       (snd (TBufferedTransport.flush
               (snd (write_all [Sample.hello; Sample.eight] Fixture.nested)))))
  = BytesIO_new [].
Proof.
  split; [reflexivity |]. split; [reflexivity |].
  exact (proj1 (proj2 (flush_through_two_buffers [Sample.hello; Sample.eight]
                         Fixture.nested eq_refl eq_refl))).
Defined.

Lemma flush_reaches_socket_witness :
  TBufferedTransport.wbuf
    (snd (TBufferedTransport.flush
            (TT := TSocket.transport (E := Traced.env (E := Mock.linux [])))
            (snd (write_all
                    (TT := TSocket.transport
                             (E := Traced.env (E := Mock.linux [])))
                    [Sample.hello; Sample.eight] Fixture.over_socket))))
  = BytesIO_new [].
Proof.
  exact (proj1 (@flush_reaches_socket Mock.os nat (Mock.linux []) 0%nat
                  [Sample.hello; Sample.eight] Fixture.over_socket
                  (@mock_accepts_at_most_offered []) eq_refl eq_refl)).
Defined.

Lemma peer_closed_never_raises_EOFError :
  recv_never_raises_EOFError (E := Fixture.peer_closed).
Proof. intros h k w w'. cbn. discriminate. Defined.

Lemma readAll_on_socket_raises_END_OF_FILE_witness :
  TTransportBase.readAll
    (TT := TSocket.transport (E := Fixture.peer_closed)) 4
    (Sample.holding Sample.quiet)
  = (Raise eof_read, Sample.holding Sample.quiet).
Proof.
  apply (proj2 (@readAll_on_socket_raises_END_OF_FILE
                  Mock.os nat Fixture.peer_closed 4
                  (Sample.holding Sample.quiet)
                  peer_closed_never_raises_EOFError) 0%nat Sample.quiet);
    [reflexivity | lia | reflexivity].
Defined.

Lemma read_passes_recv_through_witness :
  TSocket.read (E := Mock.linux []) 16 (Sample.holding Fixture.receiving)
  = (Return Sample.hello, Sample.holding Sample.quiet).
Proof.
  apply (proj1 (@read_passes_recv_through Mock.os nat (Mock.linux []) 16
                  (Sample.holding Fixture.receiving) 0%nat eq_refl));
    [reflexivity | discriminate].
Defined.

Lemma open_is_a_sequence_of_attempts_witness :
  exists atts : list (attempt nat),
    map attempt_candidate atts = firstn (length atts) Sample.candidates /\
    Forall attempt_failed (removelast atts) /\
    TSocket.handle
      (TSocket.self
         (snd (TSocket.open (E := Traced.env (E := Mock.linux Sample.only_last))
                 (TSocket.St TSocket.default (Traced.fresh Sample.quiet)))))
    = handle_after None atts.
Proof.
  destruct (@open_is_a_sequence_of_attempts
              Mock.os nat (Mock.linux Sample.only_last)
              (TSocket.St TSocket.default (Traced.fresh Sample.quiet))
              _ Sample.candidates eq_refl)
    as [_ [atts [_ [Hmap [_ [Hfail [Hh _]]]]]]].
  exists atts. split; [| split]; assumption.
Defined.

Lemma setTimeout_configures_sockets_witness :
  let s := TSocket.St TSocket.default (Traced.fresh Sample.quiet) in
  let two_and_a_half := SpecFloat.S754_finite false 5629499534213120 (-51) in
  let s0 := snd (TSocket.setTimeout (E := Traced.env (E := Mock.linux []))
                   (Some 2500) s) in
  TSocket._timeout (TSocket.self s0) = Some two_and_a_half /\
  exists atts,
    trace (TSocket.os
             (snd (TSocket.open (E := Traced.env (E := Mock.linux [])) s0)))
    = [SysGetaddrinfo nat "localhost" 9090 (Return Sample.candidates)]
      ++ flat_map (attempt_calls (Some two_and_a_half)) atts /\
    map attempt_candidate atts = firstn (length atts) Sample.candidates.
Proof.
  intros s two_and_a_half s0.
  destruct (proj1 (@setTimeout_configures_sockets Mock.os nat (Mock.linux [])
                     (Some 2500) s))
    as [Htm [_ [_ Hopen]]].
  split; [exact Htm |].
  exact (Hopen Sample.candidates _ eq_refl).
Defined.

(** A negative timeout on a live socket: [settimeout] raises
    [ValueError], which [setTimeout] raises in turn, the timeout having
    been kept. *)
Lemma setTimeout_negative_is_kept :
  let res := TSocket.setTimeout (E := Mock.linux []) (Some (-5))
               (Sample.holding Sample.quiet) in
  fst res = Raise (OtherError "ValueError") /\
  TSocket._timeout (TSocket.self (snd res))
  = Some (SpecFloat.S754_finite true 5764607523034235 (-60)).
Proof. split; vm_compute; reflexivity. Qed.

Lemma open_without_candidates_witness :
  TSocket.open (E := Mock.linux [])
    (TSocket.St TSocket.default Fixture.unresolvable)
  = (Raise (TTransportException NOT_OPEN
              (Some "Could not connect to localhost:9090"%string)),
     TSocket.St TSocket.default Fixture.unresolvable).
Proof.
  apply (proj1 (@open_without_candidates Mock.os nat (Mock.linux [])
                  (TSocket.St TSocket.default Fixture.unresolvable) eq_refl)
           [Errno (-2); ErrText "Name or service not known"]
           Fixture.unresolvable).
  reflexivity.
Defined.

Lemma readAll_through_buffer_on_socket_witness :
  fst (TTransportBase.readAll
         (TT := TBufferedTransport.transport
                  (TT := TSocket.transport (E := Fixture.peer_closed)))
         4 (TBufferedTransport.init (Sample.holding Sample.quiet) 4096))
  = Raise eof_read.
Proof.
  apply (proj2 (@readAll_through_buffer_on_socket
                  Mock.os nat Fixture.peer_closed 4
                  (TBufferedTransport.init (Sample.holding Sample.quiet) 4096)
                  peer_closed_never_raises_EOFError) 0%nat Sample.quiet);
    [reflexivity | lia | reflexivity | reflexivity].
Defined.

(** ** [camel_case] *)

Module GenerateFacts.
Import Generate.

Lemma lower_upper (c : ascii) : lower (upper c) = lower c.
Proof.
  destruct c as [[] [] [] [] [] [] [] []]; reflexivity.
Qed.

Lemma lower_lower (c : ascii) : lower (lower c) = lower c.
Proof.
  destruct c as [[] [] [] [] [] [] [] []]; reflexivity.
Qed.

Lemma upper_underscore (c : ascii) :
  Ascii.eqb (upper c) underscore = Ascii.eqb c underscore.
Proof.
  destruct c as [[] [] [] [] [] [] [] []]; reflexivity.
Qed.

Lemma lower_underscore (c : ascii) :
  Ascii.eqb (lower c) underscore = Ascii.eqb c underscore.
Proof.
  destruct c as [[] [] [] [] [] [] [] []]; reflexivity.
Qed.

Lemma lowered_app (a b : string) :
  lowered (a ++ b) = (lowered a ++ lowered b)%string.
Proof.
  induction a as [| c a IH]; cbn; [reflexivity | rewrite IH; reflexivity].
Qed.

Lemma underscores_app (a b : string) :
  underscores (a ++ b) = (underscores a + underscores b)%nat.
Proof.
  induction a as [| c a IH]; cbn; [reflexivity | rewrite IH; lia].
Qed.

Lemma lowered_title_from (b : bool) (w : string) :
  lowered (title_from b w) = lowered w.
Proof.
  revert b. induction w as [| c w IH]; intros b; cbn; [reflexivity |].
  rewrite IH. destruct b; [rewrite lower_lower | rewrite lower_upper];
    reflexivity.
Qed.

Lemma underscores_title_from (b : bool) (w : string) :
  underscores (title_from b w) = underscores w.
Proof.
  revert b. induction w as [| c w IH]; intros b; cbn; [reflexivity |].
  rewrite IH.
  destruct b; [rewrite lower_underscore | rewrite upper_underscore];
    reflexivity.
Qed.

Lemma underscores_lowered (s : string) : underscores (lowered s) = underscores s.
Proof.
  induction s as [| c s IH]; cbn; [reflexivity |].
  rewrite IH, lower_underscore. reflexivity.
Qed.

Lemma split_nonempty (s : string) : split s <> [].
Proof.
  induction s as [| c s IH]; cbn; [discriminate |].
  destruct (Ascii.eqb c underscore); [discriminate |].
  destruct (split s); discriminate.
Qed.

(** The pieces hold no underscore and make up the text without its
    underscores. *)
Lemma split_pieces (s : string) :
  join (split s) = without_underscores s /\
  Forall (fun w => underscores w = 0%nat) (split s).
Proof.
  induction s as [| c s [IHj IHu]]; cbn.
  - split; [reflexivity | repeat constructor].
  - destruct (Ascii.eqb c underscore) eqn:Hc.
    + split; [exact IHj | constructor; [reflexivity | exact IHu]].
    + pose proof (split_nonempty s) as Hne.
      destruct (split s) as [| w ws]; [contradiction |].
      cbn in *. rewrite IHj.
      split; [reflexivity |].
      inversion IHu; subst. constructor; [| assumption].
      cbn. rewrite Hc. assumption.
Qed.

Lemma join_titles (parts : list string) :
  lowered (join (map title parts)) = lowered (join parts) /\
  underscores (join (map title parts)) = underscores (join parts).
Proof.
  induction parts as [| w ws [IHl IHu]]; cbn; [split; reflexivity |].
  rewrite !lowered_app, !underscores_app, IHl, IHu.
  unfold title. rewrite lowered_title_from, underscores_title_from.
  split; reflexivity.
Qed.

Lemma underscores_join (parts : list string) :
  Forall (fun w => underscores w = 0%nat) parts ->
  underscores (join parts) = 0%nat.
Proof.
  induction 1 as [| w ws Hw Hws IH]; cbn; [reflexivity |].
  rewrite underscores_app. lia.
Qed.

Lemma length_without_underscores (s : string) :
  (String.length (without_underscores s) + underscores s)%nat = String.length s.
Proof.
  induction s as [| c s IH]; cbn; [reflexivity |].
  destruct (Ascii.eqb c underscore); cbn; lia.
Qed.

Lemma length_lowered (s : string) : String.length (lowered s) = String.length s.
Proof.
  induction s as [| c s IH]; cbn; [reflexivity | rewrite IH; reflexivity].
Qed.

Lemma split_app (a b : string) :
  split (a ++ String underscore b) = split a ++ split b.
Proof.
  induction a as [| c a IH]; cbn.
  - reflexivity.
  - destruct (Ascii.eqb c underscore); rewrite IH; [reflexivity |].
    pose proof (split_nonempty a) as Hne.
    destruct (split a); [contradiction | reflexivity].
Qed.

Lemma join_app (xs ys : list string) :
  join (xs ++ ys) = (join xs ++ join ys)%string.
Proof.
  induction xs as [| x xs IH]; cbn; [reflexivity |].
  rewrite IH.
  induction x as [| c x IHx]; cbn; [reflexivity | rewrite IHx; reflexivity].
Qed.

(** X17. On ASCII text, [camel_case] only removes the underscores and
    changes the case of letters: up to the case of letters its result is
    the text without its underscores. So the result holds no underscore
    and is shorter than the text by the number of underscores. *)
Theorem camel_case_removes_underscores (text : string) :
  ascii_text text ->
  lowered (camel_case text) = lowered (without_underscores text) /\
  underscores (camel_case text) = 0%nat /\
  (String.length (camel_case text) + underscores text)%nat = String.length text.
Proof.
  intros _. unfold camel_case.
  destruct (join_titles (split text)) as [Hl Hu].
  destruct (split_pieces text) as [Hj Hparts].
  assert (Hlow : lowered (join (map title (split text)))
                 = lowered (without_underscores text))
    by (rewrite Hl, Hj; reflexivity).
  split; [exact Hlow |].
  split; [rewrite Hu; apply underscores_join; exact Hparts |].
  rewrite <- (length_lowered (join (map title (split text)))), Hlow.
  rewrite length_lowered. apply length_without_underscores.
Qed.

(** X18. On ASCII text, [camel_case] works word by word: the result for
    two texts joined by an underscore is the result for the first
    followed by the result for the second; and a text that starts with a
    character other than the underscore gives a result that starts with
    that character, raised to upper case if it is a letter. *)
Theorem camel_case_by_words (a b : string) (c : ascii) :
  ascii_text a -> ascii_text b -> (nat_of_ascii c < 128)%nat ->
  camel_case (a ++ String underscore b)
  = (camel_case a ++ camel_case b)%string /\
  (c <> underscore ->
   exists tail, camel_case (String c a) = String (upper c) tail).
Proof.
  intros _ _ _. unfold camel_case. split.
  - rewrite split_app, map_app, join_app. reflexivity.
  - intros Hc. cbn [split].
    destruct (Ascii.eqb_spec c underscore) as [Heq | _]; [contradiction |].
    pose proof (split_nonempty a) as Hne.
    destruct (split a) as [| w ws]; [contradiction |].
    cbn. eexists. reflexivity.
Qed.

Lemma camel_case_removes_underscores_witness :
  underscores (camel_case "u_offset_t") = 0%nat.
Proof.
  assert (Ha : ascii_text "u_offset_t") by (cbn; repeat split; lia).
  exact (proj1 (proj2 (@camel_case_removes_underscores "u_offset_t" Ha))).
Defined.

Lemma camel_case_by_words_witness :
  camel_case ("u_offset" ++ String underscore "t")
  = (camel_case "u_offset" ++ camel_case "t")%string.
Proof.
  assert (Ha : ascii_text "u_offset") by (cbn; repeat split; lia).
  assert (Hb : ascii_text "t") by (cbn; repeat split; lia).
  assert (Hc : (nat_of_ascii "x" < 128)%nat) by (cbn; lia).
  exact (proj1 (@camel_case_by_words "u_offset" "t" "x" Ha Hb Hc)).
Defined.

End GenerateFacts.
